(** * Character animation state machine and controller kinematics

    A shallow embedding of [src/world.ts]: the finite state machine that
    selects the character animation ([FiniteStateMachine], [CharacterFSM],
    the four concrete states) and the per-frame kinematics of
    [BasicCharacterController.tick].

    Conventions.
    - JavaScript numbers are modelled as exact rationals ([Q]); a decimal
      literal of the source is the same decimal literal here.  Rounding,
      infinities and NaN are outside the model; the numeric properties
      below are the source's own expressions, bounds, signs and exact
      zeros, none of which rests on the absence of rounding.
    - A thrown exception keeps the side effects made before the throw, so
      the monad below carries the state on both outcomes.
    - Objects that the source compares by identity (state instances,
      listener closures) carry an identity drawn from an allocation counter.
    - three.js is an external dependency.  The parts of [AnimationAction]
      and [EventDispatcher] the source calls are modelled by the state their
      documentation describes; [Quaternion], the trigonometry behind it and
      [AnimationMixer.update] are parameters of the controller section. *)

From Stdlib Require Import QArith Qabs Qminmax Lqa Lia List Bool String PeanoNat.
Import ListNotations.

Set Implicit Arguments.

(** ** Names of the states *)

(** [type STATES = "idle" | "walking" | "run" | "dance" | "jump"] *)
Inductive STATES : Type := idle | walking | run | dance | jump.

(** The [===] of the source on two state names. *)
Definition STATES_eqb (a b : STATES) : bool :=
  match a, b with
  | idle, idle | walking, walking | run, run | dance, dance | jump, jump => true
  | _, _ => false
  end.

(** ** three.js: clips and actions *)

Record AnimationClip : Type := { duration : Q }.

Inductive LoopMode : Type := LoopOnce | LoopRepeat | LoopPingPong.

Module AnimationAction.

Record t : Type := mk {
  _clip : AnimationClip;
  time : Q;
  enabled : bool;
  paused : bool;
  weight : Q;
  timeScale : Q;
  loop : LoopMode;
  repetitions : option nat;          (* [None] is [Infinity] *)
  clampWhenFinished : bool;
  isScheduled : bool                 (* [play()] was called *)
}.

Definition getClip (a : t) : AnimationClip := _clip a.

Definition set_time (v : Q) (a : t) : t :=
  mk (_clip a) v (enabled a) (paused a) (weight a) (timeScale a)
     (loop a) (repetitions a) (clampWhenFinished a) (isScheduled a).

Definition set_enabled (v : bool) (a : t) : t :=
  mk (_clip a) (time a) v (paused a) (weight a) (timeScale a)
     (loop a) (repetitions a) (clampWhenFinished a) (isScheduled a).

Definition set_clampWhenFinished (v : bool) (a : t) : t :=
  mk (_clip a) (time a) (enabled a) (paused a) (weight a) (timeScale a)
     (loop a) (repetitions a) v (isScheduled a).

(** "Sets the timeScale and stops any scheduled warping." *)
Definition setEffectiveTimeScale (v : Q) (a : t) : t :=
  mk (_clip a) (time a) (enabled a) (paused a) (weight a) v
     (loop a) (repetitions a) (clampWhenFinished a) (isScheduled a).

(** "Sets the weight and stops any scheduled fading." *)
Definition setEffectiveWeight (v : Q) (a : t) : t :=
  mk (_clip a) (time a) (enabled a) (paused a) v (timeScale a)
     (loop a) (repetitions a) (clampWhenFinished a) (isScheduled a).

(** "Sets paused to false, enabled to true, time to 0, interrupts any
    scheduled fading and warping": weight and time scale stay. *)
Definition reset (a : t) : t :=
  mk (_clip a) 0 true false (weight a) (timeScale a)
     (loop a) (repetitions a) (clampWhenFinished a) (isScheduled a).

Definition setLoop (m : LoopMode) (n : option nat) (a : t) : t :=
  mk (_clip a) (time a) (enabled a) (paused a) (weight a) (timeScale a)
     m n (clampWhenFinished a) (isScheduled a).

(** "Tells the mixer to activate the action." *)
Definition play (a : t) : t :=
  mk (_clip a) (time a) (enabled a) (paused a) (weight a) (timeScale a)
     (loop a) (repetitions a) (clampWhenFinished a) true.

End AnimationAction.

(** One entry of [AnimationsRecord]: [{ clip, action }]. *)
Record AnimationEntry : Type := {
  clip : AnimationClip;
  action : AnimationAction.t
}.

(** [Record<string, { clip, action }>]; an absent key reads [undefined]. *)
Definition AnimationsRecord : Type := STATES -> option AnimationEntry.

Definition set_action (k : STATES) (a : AnimationAction.t)
    (r : AnimationsRecord) : AnimationsRecord :=
  fun k' =>
    if STATES_eqb k' k
    then match r k' with
         | Some e => Some {| clip := clip e; action := a |}
         | None => None
         end
    else r k'.

(** A call [incoming.crossFadeFrom(outgoing, duration, warp)], kept in the
    order the calls were made. *)
Record CrossFade : Type := {
  fadeIn : STATES;
  fadeOut : STATES;
  fadeDuration : Q;
  warp : bool
}.

(** ** State instances *)

(** The classes registered with [_AddState]. *)
Inductive StateClass : Type := IdleState | WalkState | RunState | DanceState.

(** [type parent = CharacterFSM | FiniteStateMachine | null]; the program
    has one machine. *)
Inductive FSMRef : Type := the_machine.
Definition parent : Type := option FSMRef.

Record State : Type := {
  oid : nat;                          (* object identity *)
  class : StateClass;
  _parent : parent;
  _name : STATES;
  _FinishedCallback : option nat      (* identity of the closure, DanceState *)
}.

(** The [Name] getters: [IdleState] answers the literal ["idle"], the
    others their [_name] field. *)
Definition Name (s : State) : STATES :=
  match class s with
  | IdleState => idle
  | WalkState | RunState | DanceState => _name s
  end.

(** ** Listeners of the mixer's "finished" event *)

Inductive ListenerCode : Type :=
| call_Finished (owner : State)        (* [() => { this._Finished(); }] *)
| warn_Cleanup.                        (* [() => console.warn(...)] *)

Record Listener : Type := {
  fn : nat;                            (* identity of the function object *)
  code : ListenerCode
}.

Definition same_fn (a b : Listener) : bool := Nat.eqb (fn a) (fn b).

(** [EventDispatcher.addEventListener]: pushes unless already present. *)
Definition addEventListener (l : Listener) (ls : list Listener) : list Listener :=
  if existsb (same_fn l) ls then ls else ls ++ [l].

(** [EventDispatcher.removeEventListener]: [indexOf] then [splice]. *)
Fixpoint removeEventListener (l : Listener) (ls : list Listener) : list Listener :=
  match ls with
  | [] => []
  | l' :: rest =>
      if same_fn l l' then rest else l' :: removeEventListener l rest
  end.

(** ** The machine *)

(** Calls of the [Enter] and [Exit] hooks, in order (instrumentation). *)
Inductive HookCall : Type :=
| Exit_called (s : State)
| Enter_called (s : State) (prevState : option State).

Record Machine : Type := {
  _states : STATES -> option StateClass;     (* FiniteStateMachine._states *)
  currentState : option State;               (* FiniteStateMachine.currentState *)
  _animations : AnimationsRecord;            (* ControllerProxy._animations *)
  _listeners : list Listener;                (* the mixer's "finished" listeners *)
  crossFades : list CrossFade;               (* cross-fades asked of the mixer *)
  next_oid : nat;                            (* allocation counter *)
  hooks : list HookCall                      (* instrumentation *)
}.

Definition with_currentState (v : option State) (m : Machine) : Machine :=
  {| _states := _states m; currentState := v; _animations := _animations m;
     _listeners := _listeners m; crossFades := crossFades m;
     next_oid := next_oid m; hooks := hooks m |}.

Definition with_animations (v : AnimationsRecord) (m : Machine) : Machine :=
  {| _states := _states m; currentState := currentState m; _animations := v;
     _listeners := _listeners m; crossFades := crossFades m;
     next_oid := next_oid m; hooks := hooks m |}.

Definition with_listeners (v : list Listener) (m : Machine) : Machine :=
  {| _states := _states m; currentState := currentState m;
     _animations := _animations m; _listeners := v; crossFades := crossFades m;
     next_oid := next_oid m; hooks := hooks m |}.

Definition with_crossFades (v : list CrossFade) (m : Machine) : Machine :=
  {| _states := _states m; currentState := currentState m;
     _animations := _animations m; _listeners := _listeners m; crossFades := v;
     next_oid := next_oid m; hooks := hooks m |}.

Definition with_next_oid (v : nat) (m : Machine) : Machine :=
  {| _states := _states m; currentState := currentState m;
     _animations := _animations m; _listeners := _listeners m;
     crossFades := crossFades m; next_oid := v; hooks := hooks m |}.

Definition with_hooks (v : list HookCall) (m : Machine) : Machine :=
  {| _states := _states m; currentState := currentState m;
     _animations := _animations m; _listeners := _listeners m;
     crossFades := crossFades m; next_oid := next_oid m; hooks := v |}.

(** [_AddState(status, stateType)] *)
Definition _AddState (status : STATES) (stateType : StateClass)
    (r : STATES -> option StateClass) : STATES -> option StateClass :=
  fun k => if STATES_eqb k status then Some stateType else r k.

(** The registrations of the [CharacterFSM] constructor. *)
Definition CharacterFSM_states : STATES -> option StateClass :=
  _AddState dance DanceState
    (_AddState run RunState
       (_AddState walking WalkState
          (_AddState idle IdleState (fun _ => None)))).

(** ** Exceptions and the monad of machine operations *)

Inductive Exn : Type :=
| Error (message : string)             (* [throw new Error(message)] *)
| TypeError.                           (* a property read of null or undefined,
                                          or [new] of a non-constructor *)

Inductive Outcome (S A : Type) : Type :=
| Returned (a : A) (s : S)
| Threw (e : Exn) (s : S).

Arguments Returned {S A} a s.
Arguments Threw {S A} e s.

Definition final {S A : Type} (o : Outcome S A) : S :=
  match o with Returned _ s => s | Threw _ s => s end.

Definition threw {S A : Type} (o : Outcome S A) : bool :=
  match o with Returned _ _ => false | Threw _ _ => true end.

Definition M (A : Type) : Type := Machine -> Outcome Machine A.

Definition ret {A : Type} (a : A) : M A := fun m => Returned a m.

Definition bind {A B : Type} (c : M A) (k : A -> M B) : M B :=
  fun m => match c m with
           | Returned a m' => k a m'
           | Threw e m' => Threw e m'
           end.

Definition throw {A : Type} (e : Exn) : M A := fun m => Threw e m.

Definition get : M Machine := fun m => Returned m m.

Definition modify (f : Machine -> Machine) : M unit := fun m => Returned tt (f m).

Declare Scope fsm_scope.
Delimit Scope fsm_scope with fsm.
Notation "x <- c ;; k" := (bind c (fun x => k))
  (at level 61, c at next level, right associativity) : fsm_scope.
Notation "c ;; k" := (bind c (fun _ => k))
  (at level 61, right associativity) : fsm_scope.
Local Open Scope fsm_scope.

(** ** Input *)

Module ControllerInput.

(** [ControllerInput.keys] *)
Record keys : Type := mk {
  forward : bool;
  backward : bool;
  left : bool;
  right : bool;
  space : bool;
  shift : bool
}.

(** The value of the field initialiser: nothing is held. *)
Definition released : keys := mk false false false false false false.

End ControllerInput.

(** ** Primitive operations on the machine *)

(** A new object identity. *)
Definition fresh : M nat :=
  m <- get ;;
  modify (with_next_oid (S (next_oid m))) ;;
  ret (next_oid m).

(** [_proxy._animations[k].action]: a [TypeError] when the entry is absent. *)
Definition the_action (k : STATES) : M AnimationAction.t :=
  m <- get ;;
  match _animations m k with
  | Some e => ret (action e)
  | None => throw TypeError
  end.

(** A mutation of the action object stored under [k]. *)
Definition on_action (k : STATES)
    (f : AnimationAction.t -> AnimationAction.t) : M unit :=
  a <- the_action k ;;
  modify (fun m => with_animations (set_action k (f a) (_animations m)) m).

(** [incoming.crossFadeFrom(outgoing, d, w)].  three.js schedules a fade-out
    on the outgoing action, a fade-in on the incoming one and, with [w], a
    time-scale warp on both; the schedules take effect in later mixer
    updates and are not fields of the model, which keeps the call itself:
    what is proved of an action after a cross-fade is about the fields
    written directly, and nothing is claimed of the two actions' schedules. *)
Definition crossFadeFrom (incoming outgoing : STATES) (d : Q) (w : bool) : M unit :=
  modify (fun m =>
    with_crossFades
      (crossFades m ++
         [{| fadeIn := incoming; fadeOut := outgoing;
             fadeDuration := d; warp := w |}]) m).

(** [if (!this._parent) throw new Error(message)] *)
Definition require_parent (this : State) (message : string) : M unit :=
  match _parent this with
  | Some _ => ret tt
  | None => throw (Error message)
  end.

Definition log_hook (h : HookCall) : M unit :=
  modify (fun m => with_hooks (hooks m ++ [h]) m).

(** ** Constructors of the state classes *)

Definition new_State (c : StateClass) (p : parent) : M State :=
  match c with
  | IdleState =>
      i <- fresh ;;
      ret {| oid := i; class := IdleState; _parent := p; _name := idle;
             _FinishedCallback := None |}
  | WalkState =>
      i <- fresh ;;
      ret {| oid := i; class := WalkState; _parent := p; _name := walking;
             _FinishedCallback := None |}
  | RunState =>
      i <- fresh ;;
      ret {| oid := i; class := RunState; _parent := p; _name := run;
             _FinishedCallback := None |}
  | DanceState =>
      i <- fresh ;;
      f <- fresh ;;
      ret {| oid := i; class := DanceState; _parent := p; _name := dance;
             _FinishedCallback := Some f |}
  end.

(** ** The [Enter] hooks *)

Definition IdleState_Enter (this : State) (prevState : option State) : M unit :=
  require_parent this " PARENT NULL" ;;
  _ <- the_action idle ;;
  match prevState with
  | None => on_action idle AnimationAction.play
  | Some p =>
      _ <- the_action (Name p) ;;
      on_action idle (AnimationAction.set_time 0.0) ;;
      on_action idle (AnimationAction.set_enabled true) ;;
      on_action idle (AnimationAction.setEffectiveTimeScale 1.0) ;;
      on_action idle (AnimationAction.setEffectiveWeight 1.0) ;;
      crossFadeFrom idle (Name p) 0.5 true ;;
      on_action idle AnimationAction.play
  end.

Definition RunState_Enter (this : State) (prevState : option State) : M unit :=
  require_parent this " PARENT NULL" ;;
  match prevState with
  | None => throw TypeError            (* [prevState.Name] of null *)
  | Some p =>
      let prevName := Name p in
      _ <- the_action (Name this) ;;
      _ <- the_action prevName ;;
      on_action (Name this) (AnimationAction.set_enabled true) ;;
      (if STATES_eqb (Name p) walking
       then
         curAction <- the_action (Name this) ;;
         prevAction <- the_action prevName ;;
         let ratio :=
           duration (AnimationAction.getClip curAction)
           / duration (AnimationAction.getClip prevAction) in
         on_action (Name this)
           (AnimationAction.set_time (AnimationAction.time prevAction * ratio))
       else
         on_action (Name this) (AnimationAction.set_time 0.0) ;;
         on_action (Name this) (AnimationAction.setEffectiveTimeScale 1.0) ;;
         on_action (Name this) (AnimationAction.setEffectiveWeight 1.0)) ;;
      crossFadeFrom (Name this) prevName 0.2 true ;;
      on_action (Name this) AnimationAction.play
  end.

Definition WalkState_Enter (this : State) (prevState : option State) : M unit :=
  require_parent this " PARENT NULL" ;;
  _ <- the_action walking ;;
  match prevState with
  | Some p =>
      _ <- the_action (Name p) ;;
      on_action walking (AnimationAction.set_enabled true) ;;
      (if STATES_eqb (Name p) run
       then
         curAction <- the_action walking ;;
         prevAction <- the_action (Name p) ;;
         let ratio :=
           duration (AnimationAction.getClip curAction)
           / duration (AnimationAction.getClip prevAction) in
         on_action walking
           (AnimationAction.set_time (AnimationAction.time prevAction * ratio))
       else
         on_action walking (AnimationAction.set_time 0.0) ;;
         on_action walking (AnimationAction.setEffectiveTimeScale 1.0) ;;
         on_action walking (AnimationAction.setEffectiveWeight 1.0)) ;;
      crossFadeFrom walking (Name p) 0.5 true ;;
      on_action walking AnimationAction.play
  | None => on_action walking AnimationAction.play
  end.

Definition DanceState_Enter (this : State) (prevState : option State) : M unit :=
  require_parent this " PARENT NULL" ;;
  _ <- the_action dance ;;
  (* mixer.addEventListener("finished", this._FinishedCallback) *)
  match _FinishedCallback this with
  | Some f =>
      modify (fun m =>
        with_listeners
          (addEventListener {| fn := f; code := call_Finished this |}
             (_listeners m)) m)
  | None => ret tt                     (* no DanceState is built without one *)
  end ;;
  match prevState with
  | Some p =>
      _ <- the_action (Name p) ;;
      on_action dance AnimationAction.reset ;;
      on_action dance (AnimationAction.setLoop LoopOnce (Some 1%nat)) ;;
      on_action dance (AnimationAction.set_clampWhenFinished true) ;;
      crossFadeFrom dance (Name p) 0.2 true ;;
      on_action dance AnimationAction.play
  | None => on_action dance AnimationAction.play
  end.

Definition Enter (this : State) (prevState : option State) : M unit :=
  log_hook (Enter_called this prevState) ;;
  match class this with
  | IdleState => IdleState_Enter this prevState
  | WalkState => WalkState_Enter this prevState
  | RunState => RunState_Enter this prevState
  | DanceState => DanceState_Enter this prevState
  end.

(** ** The [Exit] hooks *)

(** [DanceState._Cleanup]: the listener handed to [removeEventListener] is
    an arrow function created by this very call. *)
Definition _Cleanup (this : State) : M unit :=
  require_parent this " PARENT NULL" ;;
  _ <- the_action dance ;;
  f <- fresh ;;
  modify (fun m =>
    with_listeners
      (removeEventListener {| fn := f; code := warn_Cleanup |} (_listeners m)) m).

(** [RunState.Exit] reads its action and does nothing with it. *)
Definition RunState_Exit (this : State) : M unit :=
  match _parent this with
  | None => throw TypeError            (* destructuring of null *)
  | Some _ => _ <- the_action (Name this) ;; ret tt
  end.

Definition Exit (this : State) : M unit :=
  log_hook (Exit_called this) ;;
  match class this with
  | IdleState => ret tt
  | WalkState => ret tt
  | RunState => RunState_Exit this
  | DanceState => _Cleanup this
  end.

(** ** [FiniteStateMachine.SetState] *)

(** Lines 165-170: look the constructor up, build the state, make it the
    current one, enter it. *)
Definition SetState_construct (nameState : STATES) (prevState : option State)
    : M unit :=
  m <- get ;;
  match _states m nameState with
  | None => throw TypeError            (* [new undefined(this)] *)
  | Some currentState_class =>
      state <- new_State currentState_class (Some the_machine) ;;
      modify (with_currentState (Some state)) ;;
      Enter state prevState
  end.

Definition SetState (nameState : STATES) : M unit :=
  m <- get ;;
  match currentState m with
  | Some prevState =>
      if STATES_eqb (Name prevState) nameState
      then ret tt
      else Exit prevState ;; SetState_construct nameState (Some prevState)
  | None => SetState_construct nameState None
  end.

(** ** The [Update] hooks *)

Import ControllerInput.

Definition IdleState_Update (this : State) (input : keys) : M unit :=
  require_parent this " PARENT NULL" ;;
  if forward input || backward input then SetState walking
  else if space input then SetState dance
  else ret tt.

Definition RunState_Update (this : State) (input : keys) : M unit :=
  require_parent this "this parent is null" ;;
  if forward input || backward input
  then (if negb (shift input) then SetState walking else ret tt)
  else SetState idle.

Definition WalkState_Update (this : State) (input : keys) : M unit :=
  require_parent this " PARENT NULL" ;;
  if forward input || backward input
  then (if shift input then SetState run else ret tt)
  else SetState idle.

(** [FiniteStateMachine.Update] *)
Definition Update (timeElapsed : Q) (input : keys) : M unit :=
  m <- get ;;
  match currentState m with
  | Some s =>
      match class s with
      | IdleState => IdleState_Update s input
      | WalkState => WalkState_Update s input
      | RunState => RunState_Update s input
      | DanceState => ret tt
      end
  | None => ret tt
  end.

(** ** The "finished" event *)

(** [DanceState._Finished] *)
Definition _Finished (this : State) : M unit :=
  _Cleanup this ;;
  require_parent this " PARENT NULL" ;;
  SetState idle.

Definition invoke (l : Listener) : M unit :=
  match code l with
  | call_Finished owner => _Finished owner
  | warn_Cleanup => ret tt
  end.

Fixpoint invoke_all (ls : list Listener) : M unit :=
  match ls with
  | [] => ret tt
  | l :: rest => invoke l ;; invoke_all rest
  end.

(** [mixer.dispatchEvent({ type: "finished", ... })]: the listeners present
    when the event is dispatched are called in the order of registration. *)
Definition dispatch_finished : M unit :=
  m <- get ;;
  invoke_all (_listeners m).

(** ** Vectors and the numeric built-ins *)

Module Vector3.

Record t : Type := mk { x : Q; y : Q; z : Q }.

Definition set_z (v : Q) (a : t) : t := mk (x a) (y a) v.

Definition multiplyScalar (s : Q) (a : t) : t :=
  mk (x a * s) (y a * s) (z a * s).

Definition add (a b : t) : t := mk (x a + x b) (y a + y b) (z a + z b).

(** Equality of the three components as rational numbers. *)
Definition eqv (a b : t) : Prop := x a == x b /\ y a == y b /\ z a == z b.

End Vector3.

(** [Math.sign] *)
Definition Math_sign (q : Q) : Q := inject_Z (Z.sgn (Qnum q)).

(** [Math.abs] and [Math.min] *)
Definition Math_abs : Q -> Q := Qabs.
Definition Math_min : Q -> Q -> Q := Qmin.

(** [Math.PI]: the double nearest to pi, which is this rational. *)
Definition Math_PI : Q := 884279719003555 # 281474976710656.

(** Lines 499-507 of [tick]: the local [frameDecceleration]. *)
Definition frameDecceleration (velocity _decceleration : Vector3.t)
    (timeInSeconds : Q) : Vector3.t :=
  let fd :=
    Vector3.mk (Vector3.x velocity * Vector3.x _decceleration)
               (Vector3.y velocity * Vector3.y _decceleration)
               (Vector3.z velocity * Vector3.z _decceleration) in
  let fd := Vector3.multiplyScalar timeInSeconds fd in
  Vector3.set_z
    (Math_sign (Vector3.z fd)
     * Math_min (Math_abs (Vector3.z fd)) (Math_abs (Vector3.z velocity)))
    fd.

(** [currentState && currentState.Name === "dance"] *)
Definition is_dancing (m : Machine) : bool :=
  match currentState m with
  | Some s => STATES_eqb (Name s) dance
  | None => false
  end.

(** Lines 516-526 of [tick]: the local [acc]. *)
Definition acc (_acceleration : Vector3.t) (input : keys) (m : Machine)
    : Vector3.t :=
  let acc := _acceleration in
  let acc := if shift input then Vector3.multiplyScalar 2.0 acc else acc in
  if is_dancing m then Vector3.multiplyScalar 0.0 acc else acc.

(** The values the constructor gives the two constant vectors. *)
Definition decceleration0 : Vector3.t := Vector3.mk (-0.0005) (-0.0001) (-5.0).
Definition acceleration0 : Vector3.t := Vector3.mk 1 0.25 25.0.

(** ** The controller *)

Section Controller.

(** three.js, taken as given. *)
Variable Quaternion : Type.
Variable setFromAxisAngle : Vector3.t -> Q -> Quaternion.
Variable multiply : Quaternion -> Quaternion -> Quaternion.
Variable applyQuaternion : Vector3.t -> Quaternion -> Vector3.t.
Variable normalize : Vector3.t -> Vector3.t.
(** [mixer.update(dt)] advances the actions and says whether a
    "finished" event is dispatched. *)
Variable mixer_update : Q -> AnimationsRecord -> AnimationsRecord * bool.

Record Object3D : Type := {
  quaternion : Quaternion;
  position : Vector3.t
}.

Record BasicCharacterController : Type := {
  _decceleration : Vector3.t;
  _acceleration : Vector3.t;
  _velocity : Vector3.t;
  _input : keys;
  _stateMachine : Machine;
  _target : option Object3D
}.

Definition with_stateMachine (m : Machine) (c : BasicCharacterController)
    : BasicCharacterController :=
  {| _decceleration := _decceleration c; _acceleration := _acceleration c;
     _velocity := _velocity c; _input := _input c; _stateMachine := m;
     _target := _target c |}.

Definition with_input (k : keys) (c : BasicCharacterController)
    : BasicCharacterController :=
  {| _decceleration := _decceleration c; _acceleration := _acceleration c;
     _velocity := _velocity c; _input := k;
     _stateMachine := _stateMachine c; _target := _target c |}.

(** The yaw of lines 534-549 applied to the clone [_R]. *)
Definition yaw (_acceleration : Vector3.t) (input : keys)
    (timeInSeconds : Q) (_R : Quaternion) : Quaternion :=
  let _R :=
    if left input
    then multiply _R
           (setFromAxisAngle (Vector3.mk 0 1 0)
              (4.0 * Math_PI * timeInSeconds * Vector3.y _acceleration))
    else _R in
  if right input
  then multiply _R
         (setFromAxisAngle (Vector3.mk 0 1 0)
            (4.0 * - Math_PI * timeInSeconds * Vector3.y _acceleration))
  else _R.

(** Lines 528-533: the forward and backward keys. *)
Definition accelerate (acc : Vector3.t) (input : keys) (timeInSeconds : Q)
    (velocity : Vector3.t) : Vector3.t :=
  let velocity :=
    if forward input
    then Vector3.set_z (Vector3.z velocity + Vector3.z acc * timeInSeconds)
           velocity
    else velocity in
  if backward input
  then Vector3.set_z (Vector3.z velocity - Vector3.z acc * timeInSeconds)
         velocity
  else velocity.

(** [mixer.update(timeInSeconds)] followed by the listeners of the event
    it dispatches.  [_mixer] is assigned in the callback that assigns
    [_target], so the guard [if (this._mixer)] holds whenever the tick gets
    this far. *)
Definition mixer_step (timeInSeconds : Q) : M unit :=
  m <- get ;;
  let '(animations, finished) := mixer_update timeInSeconds (_animations m) in
  modify (with_animations animations) ;;
  if finished then dispatch_finished else ret tt.

(** [BasicCharacterController.tick] *)
Definition tick (timeInSeconds : Q) (c : BasicCharacterController)
    : Outcome BasicCharacterController unit :=
  match _target c with
  | None => Returned tt c
  | Some controlObject =>
      match Update timeInSeconds (_input c) (_stateMachine c) with
      | Threw e m => Threw e (with_stateMachine m c)
      | Returned _ m =>
          let velocity := _velocity c in
          let fd :=
            frameDecceleration velocity (_decceleration c) timeInSeconds in
          let velocity := Vector3.add velocity fd in
          let _R := quaternion controlObject in
          let acc := acc (_acceleration c) (_input c) m in
          let velocity := accelerate acc (_input c) timeInSeconds velocity in
          let _R := yaw (_acceleration c) (_input c) timeInSeconds _R in
          let forward :=
            normalize (applyQuaternion (Vector3.mk 0 0 1) _R) in
          let sideways :=
            normalize (applyQuaternion (Vector3.mk 1 0 0) _R) in
          let sideways :=
            Vector3.multiplyScalar (Vector3.x velocity * timeInSeconds)
              sideways in
          let forward :=
            Vector3.multiplyScalar (Vector3.z velocity * timeInSeconds)
              forward in
          let position :=
            Vector3.add (Vector3.add (position controlObject) forward)
              sideways in
          let moved (m' : Machine) :=
            {| _decceleration := _decceleration c;
               _acceleration := _acceleration c;
               _velocity := velocity;
               _input := _input c;
               _stateMachine := m';
               _target := Some {| quaternion := _R; position := position |}
            |} in
          match mixer_step timeInSeconds m with
          | Returned _ m' => Returned tt (moved m')
          | Threw e m' => Threw e (moved m')
          end
      end
  end.

End Controller.

(** ** Loading and construction *)

(** [this._mixer.clipAction(clip)]: a new action with three.js's defaults. *)
Definition clipAction (c : AnimationClip) : AnimationAction.t :=
  AnimationAction.mk c 0 true false 1 1 LoopRepeat None false false.

(** The local [_OnLoad] of [_LoadModels]. *)
Definition _OnLoad (animName : STATES) (c : AnimationClip)
    (r : AnimationsRecord) : AnimationsRecord :=
  fun k =>
    if STATES_eqb k animName
    then Some {| clip := c; action := clipAction c |}
    else r k.

(** The machine the constructors build: four registered classes, no
    current state, no listener. *)
Definition initial_machine (animations : AnimationsRecord) : Machine :=
  {| _states := CharacterFSM_states;
     currentState := None;
     _animations := animations;
     _listeners := [];
     crossFades := [];
     next_oid := 0;
     hooks := [] |}.

(** The name a class gives its instances. *)
Definition class_name (c : StateClass) : STATES :=
  match c with
  | IdleState => idle
  | WalkState => walking
  | RunState => run
  | DanceState => dance
  end.

(** ** Predicates used in the statements *)

(** The four animations of [_LoadModels] are present. *)
Definition loaded (r : AnimationsRecord) : Prop :=
  r idle <> None /\ r walking <> None /\ r run <> None /\ r dance <> None.

(** A state as [SetState] builds it. *)
Definition constructed (s : State) : Prop :=
  _parent s = Some the_machine /\ _name s = class_name (class s).

(** A machine with the registrations of [CharacterFSM], the animations
    loaded and a current state, if any, built by [SetState]. *)
Definition ready (m : Machine) : Prop :=
  (forall k, _states m k = CharacterFSM_states k)
  /\ loaded (_animations m)
  /\ (forall s, currentState m = Some s -> constructed s).

(** A sequence of [SetState] calls; a call that throws leaves the machine
    as it was at the throw and the next call is made all the same. *)
Definition SetState_calls (names : list STATES) (m : Machine) : Machine :=
  fold_left (fun m nameState => final (SetState nameState m)) names m.

(** The hook calls of a succession of states, each entered with its
    predecessor, which is exited just before. *)
Fixpoint succession (prevState : option State) (ss : list State)
    : list HookCall :=
  match ss with
  | [] => []
  | s :: rest =>
      match prevState with
      | Some p => [Exit_called p]
      | None => []
      end ++ Enter_called s prevState :: succession (Some s) rest
  end.

(** The states entered and not exited since, after a trace of hook calls. *)
Definition same_object (a b : State) : bool := Nat.eqb (oid a) (oid b).

Fixpoint active_after (t : list HookCall) (active : list State) : list State :=
  match t with
  | [] => active
  | Enter_called s _ :: rest => active_after rest (s :: active)
  | Exit_called s :: rest =>
      active_after rest (filter (fun a => negb (same_object a s)) active)
  end.

(** The number of calls of [Exit] on the state object [s] in a trace. *)
Definition is_Exit_of (s : State) (h : HookCall) : bool :=
  match h with
  | Exit_called x => same_object x s
  | Enter_called _ _ => false
  end.

Definition Exit_calls (s : State) (t : list HookCall) : nat :=
  List.length (filter (is_Exit_of s) t).

(** The action stored under a name, read through the record. *)
Definition action_of (m : Machine) (k : STATES) : option AnimationAction.t :=
  match _animations m k with
  | Some e => Some (action e)
  | None => None
  end.

(** The Walk/Run pair of transitions. *)
Definition same_family (prevName nameState : STATES) : bool :=
  match prevName, nameState with
  | walking, run | run, walking => true
  | _, _ => false
  end.

(** One Dance activation that runs to completion: the state is requested
    and the mixer then dispatches "finished". *)
Definition dance_cycle : M unit := SetState dance ;; dispatch_finished.

Fixpoint dance_cycles (n : nat) : M unit :=
  match n with
  | O => ret tt
  | S k => dance_cycle ;; dance_cycles k
  end.

(** The listeners all belong to constructed Dance states and are older
    than the allocation counter. *)
Definition listeners_known (m : Machine) : Prop :=
  Forall (fun l => (fn l < next_oid m)%nat
                   /\ exists owner, code l = call_Finished owner
                                    /\ constructed owner) (_listeners m).

(** Keys with the movement keys and the modifier released. *)
Definition no_movement (k : keys) : keys :=
  ControllerInput.mk false false (left k) (right k) (space k) false.

(** ** Concrete data for the examples *)

Definition example_animations : AnimationsRecord :=
  _OnLoad dance {| duration := 12.5 |}
    (_OnLoad idle {| duration := 3.0 |}
       (_OnLoad run {| duration := 0.75 |}
          (_OnLoad walking {| duration := 1.0 |} (fun _ => None)))).

(** After load: [this._stateMachine.SetState("idle")]. *)
Definition machine_idle : Machine :=
  final (SetState idle (initial_machine example_animations)).

Definition machine_walking : Machine := final (SetState walking machine_idle).

Definition machine_run : Machine := final (SetState run machine_walking).

Definition machine_dance : Machine := final (SetState dance machine_idle).

(** The walking action some way into its clip. *)
Definition machine_walking_mid : Machine :=
  final (on_action walking (AnimationAction.set_time 0.4) machine_walking).

(** An idle machine whose dance action was left, by an earlier warp, with
    a time scale and a weight other than 1. *)
Definition machine_idle_warped : Machine :=
  final (on_action dance
           (fun a => AnimationAction.setEffectiveWeight 0.5
                       (AnimationAction.setEffectiveTimeScale 2 a))
           machine_idle).

(** A stand-in for three.js in the examples: a rotation about the vertical
    axis is kept as its angle. *)
Definition toy_setFromAxisAngle (axis : Vector3.t) (angle : Q) : Q := angle.
Definition toy_multiply (a b : Q) : Q := a + b.
Definition toy_applyQuaternion (v : Vector3.t) (q : Q) : Vector3.t := v.
Definition toy_normalize (v : Vector3.t) : Vector3.t := v.
Definition toy_mixer_update (dt : Q) (r : AnimationsRecord)
    : AnimationsRecord * bool := (r, false).

Definition example_controller (m : Machine) (k : keys)
    : BasicCharacterController Q :=
  {| _decceleration := decceleration0;
     _acceleration := acceleration0;
     _velocity := Vector3.mk 0 0 3;
     _input := k;
     _stateMachine := m;
     _target := Some {| quaternion := 0; position := Vector3.mk 0 0 0 |} |}.

Definition toy_tick (dt : Q) (c : BasicCharacterController Q)
    : Outcome (BasicCharacterController Q) unit :=
  tick toy_setFromAxisAngle toy_multiply toy_applyQuaternion toy_normalize
       toy_mixer_update dt c.

(** ** The keyboard handlers *)

Section Keyboard.

(** [String.prototype.toLocaleLowerCase], taken as given. *)
Variable toLocaleLowerCase : string -> string.

(** [ControllerInput._onKeyDown], on [event.key]. *)
Definition _onKeyDown (key : string) (k : keys) : keys :=
  let l := toLocaleLowerCase key in
  if String.eqb l "w" then
    ControllerInput.mk true (backward k) (left k) (right k) (space k) (shift k)
  else if String.eqb l "a" then
    ControllerInput.mk (forward k) (backward k) true (right k) (space k)
      (shift k)
  else if String.eqb l "s" then
    ControllerInput.mk (forward k) true (left k) (right k) (space k) (shift k)
  else if String.eqb l "d" then
    ControllerInput.mk (forward k) (backward k) (left k) true (space k)
      (shift k)
  else if String.eqb l " " then
    ControllerInput.mk (forward k) (backward k) (left k) (right k) true
      (shift k)
  else if String.eqb l "shift" then
    ControllerInput.mk (forward k) (backward k) (left k) (right k) (space k)
      true
  else k.

(** [ControllerInput._onKeyUp], on [event.key]. *)
Definition _onKeyUp (key : string) (k : keys) : keys :=
  let l := toLocaleLowerCase key in
  if String.eqb l "w" then
    ControllerInput.mk false (backward k) (left k) (right k) (space k)
      (shift k)
  else if String.eqb l "a" then
    ControllerInput.mk (forward k) (backward k) false (right k) (space k)
      (shift k)
  else if String.eqb l "s" then
    ControllerInput.mk (forward k) false (left k) (right k) (space k) (shift k)
  else if String.eqb l "d" then
    ControllerInput.mk (forward k) (backward k) (left k) false (space k)
      (shift k)
  else if String.eqb l " " then
    ControllerInput.mk (forward k) (backward k) (left k) (right k) false
      (shift k)
  else if String.eqb l "shift" then
    ControllerInput.mk (forward k) (backward k) (left k) (right k) (space k)
      false
  else k.

End Keyboard.

(** ** The name an [Update] hook requests *)

(** Read off [IdleState.Update], [WalkState.Update], [RunState.Update] and
    [DanceState.Update]: the name handed to [SetState], or the name of the
    state itself where the hook returns without a request. *)
Definition Update_request (n : STATES) (input : keys) : STATES :=
  match n with
  | idle =>
      if forward input || backward input then walking
      else if space input then dance
      else idle
  | walking =>
      if forward input || backward input
      then (if shift input then run else walking)
      else idle
  | run =>
      if forward input || backward input
      then (if negb (shift input) then walking else run)
      else idle
  | dance => dance
  | jump => jump
  end.

(** ** The render loop *)

Section RenderLoop.

Variable Quaternion : Type.
Variable setFromAxisAngle : Vector3.t -> Q -> Quaternion.
Variable multiply : Quaternion -> Quaternion -> Quaternion.
Variable applyQuaternion : Vector3.t -> Quaternion -> Vector3.t.
Variable normalize : Vector3.t -> Vector3.t.
Variable mixer_update : Q -> AnimationsRecord -> AnimationsRecord * bool.

(** The fields of [WorldWithCharacter] the loop uses, and a log of the
    calls of [tick]: the seconds handed over and whether the call threw
    (instrumentation). *)
Record WorldWithCharacter : Type := {
  _previousRAF : option Q;
  _controls : BasicCharacterController Quaternion;
  ticked : list (Q * bool)
}.

(** [WorldWithCharacter._Tick].  [_mixers] stays empty, nothing calls
    [_LoadAnimatedModelAndPlay]; [_controls] is set before the first
    frame. *)
Definition _Tick (timeElapsed : Q) (c : BasicCharacterController Quaternion)
    : Outcome (BasicCharacterController Quaternion) unit :=
  let timeElapsedS := timeElapsed * 0.001 in
  tick setFromAxisAngle multiply applyQuaternion normalize mixer_update
       timeElapsedS c.

(** The callback of [_RAF] at time stamp [t].  When [_Tick] throws, the
    assignment [this._previousRAF = t] after it is not reached; the next
    frame was requested before, so the loop goes on. *)
Definition _RAF (t : Q) (w : WorldWithCharacter) : WorldWithCharacter :=
  let previous :=
    match _previousRAF w with
    | None => t
    | Some p => p
    end in
  match _Tick (t - previous) (_controls w) with
  | Returned _ c =>
      {| _previousRAF := Some t; _controls := c;
         ticked := ticked w ++ [((t - previous) * 0.001, false)] |}
  | Threw _ c =>
      {| _previousRAF := Some previous; _controls := c;
         ticked := ticked w ++ [((t - previous) * 0.001, true)] |}
  end.

(** The frames at the time stamps [ts], in order. *)
Definition frames (ts : list Q) (w : WorldWithCharacter)
    : WorldWithCharacter :=
  fold_left (fun w t => _RAF t w) ts w.

End RenderLoop.

(** The seconds between consecutive time stamps, the first one taken from
    [p]: what [_Tick] computes from [t - this._previousRAF] frame after
    frame when [_previousRAF] follows the time stamps. *)
Fixpoint frame_seconds (p : Q) (ts : list Q) : list Q :=
  match ts with
  | [] => []
  | t :: rest => (t - p) * 0.001 :: frame_seconds t rest
  end.

(** A property that survives every write of the machine operations but a
    write of the animations other than through a stored action. *)
Definition frame_stable (P : Machine -> Prop) : Prop :=
  (forall m,
      P m ->
      (forall k a, P (with_animations (set_action k a (_animations m)) m))
      /\ (forall l, P (with_listeners l m))
      /\ (forall f, P (with_crossFades f m))
      /\ (forall n, (next_oid m <= n)%nat -> P (with_next_oid n m)))
  /\ (forall m h, P m -> P (with_hooks h m))
  /\ (forall m c, P m -> P (with_currentState c m)).

(** ** Reasoning about machine operations *)

(** [c] keeps [P] true, whether it returns or throws. *)
Definition preserves {A : Type} (P : Machine -> Prop) (c : M A) : Prop :=
  forall m, P m -> P (final (c m)).

(** A property that survives the writes the hooks make: a new value for a
    stored action, any change of the listeners or the cross-fades, and any
    growth of the allocation counter. *)
Definition stable (P : Machine -> Prop) : Prop :=
  forall m,
    P m ->
    (forall k a, P (with_animations (set_action k a (_animations m)) m))
    /\ (forall l, P (with_listeners l m))
    /\ (forall f, P (with_crossFades f m))
    /\ (forall n, (next_oid m <= n)%nat -> P (with_next_oid n m)).

(** What the bodies of the hooks leave of a machine [m]: the hook trace,
    the current state and the registrations as they are, the allocation
    counter no smaller, the animations still loaded. *)
Definition hook_frame (m m' : Machine) : Prop :=
  hooks m' = hooks m
  /\ currentState m' = currentState m
  /\ (forall k, _states m' k = _states m k)
  /\ (next_oid m <= next_oid m')%nat
  /\ (loaded (_animations m) -> loaded (_animations m')).

(** The five ways a call [SetState nameState] can go, from [m] to [m']. *)
Inductive SetState_effect (nameState : STATES) (m m' : Machine) : Prop :=
| effect_same_name (p : State) :
    currentState m = Some p -> Name p = nameState -> m' = m ->
    SetState_effect nameState m m'
| effect_exit_then_throw (p : State) :
    currentState m = Some p -> Name p <> nameState ->
    threw (Exit p m) = true \/ _states m nameState = None ->
    hooks m' = hooks m ++ [Exit_called p] ->
    currentState m' = Some p ->
    (forall k, _states m' k = _states m k) ->
    (next_oid m <= next_oid m')%nat ->
    SetState_effect nameState m m'
| effect_replace (p s : State) (c : StateClass) :
    currentState m = Some p -> Name p <> nameState ->
    _states m nameState = Some c ->
    hooks m' = hooks m ++ [Exit_called p; Enter_called s (Some p)] ->
    currentState m' = Some s ->
    class s = c -> constructed s ->
    (next_oid m <= oid s < next_oid m')%nat ->
    (forall k, _states m' k = _states m k) ->
    (loaded (_animations m) -> loaded (_animations m')) ->
    SetState_effect nameState m m'
| effect_throw_unregistered :
    currentState m = None -> _states m nameState = None -> m' = m ->
    SetState_effect nameState m m'
| effect_first (s : State) (c : StateClass) :
    currentState m = None ->
    _states m nameState = Some c ->
    hooks m' = hooks m ++ [Enter_called s None] ->
    currentState m' = Some s ->
    class s = c -> constructed s ->
    (next_oid m <= oid s < next_oid m')%nat ->
    (forall k, _states m' k = _states m k) ->
    (loaded (_animations m) -> loaded (_animations m')) ->
    SetState_effect nameState m m'.

(** The last state of a succession, if any. *)
Fixpoint last_state (ss : list State) : option State :=
  match ss with
  | [] => None
  | s :: rest =>
      match last_state rest with
      | Some l => Some l
      | None => Some s
      end
  end.

(** At most one state is active after every prefix of the hook trace, and
    an active state is the current one. *)
Definition one_active (m : Machine) : Prop :=
  (forall t rest, hooks m = t ++ rest ->
                  (List.length (active_after t []) <= 1)%nat)
  /\ (forall a, In a (active_after (hooks m) []) ->
                exists p, currentState m = Some p /\ oid a = oid p).

(** The hook trace is a succession of distinct constructed states that
    ends with the current one, on a machine that is ready. *)
Definition in_succession (m : Machine) (ss : list State) : Prop :=
  hooks m = succession None ss
  /\ NoDup (map oid ss)
  /\ currentState m = last_state ss
  /\ Forall (fun s => (oid s < next_oid m)%nat /\ constructed s) ss.

(** A machine between two Dance activations: ready, in a state named
    idle, with listeners that are all known. *)
Definition settled (m : Machine) : Prop :=
  ready m /\ listeners_known m
  /\ exists p, currentState m = Some p /\ Name p = idle.

(* ================================================================== *)
(** * Properties *)

Unset Implicit Arguments.


(** ** The monad *)

Lemma final_bind {A B : Type} (c : M A) (k : A -> M B) (m : Machine) :
  final (bind c k m)
  = match c m with
    | Returned a m' => final (k a m')
    | Threw _ m' => m'
    end.
Proof. unfold bind. destruct (c m); reflexivity. Qed.

Lemma preserves_ret {A : Type} (P : Machine -> Prop) (a : A) :
  preserves P (ret a).
Proof. intros m H. exact H. Qed.

Lemma preserves_throw {A : Type} (P : Machine -> Prop) (e : Exn) :
  preserves P (@throw A e).
Proof. intros m H. exact H. Qed.

Lemma preserves_get (P : Machine -> Prop) : preserves P get.
Proof. intros m H. exact H. Qed.

Lemma preserves_modify (P : Machine -> Prop) (f : Machine -> Machine) :
  (forall m, P m -> P (f m)) -> preserves P (modify f).
Proof. intros Hf m H. apply Hf, H. Qed.

Lemma preserves_bind {A B : Type} (P : Machine -> Prop)
    (c : M A) (k : A -> M B) :
  preserves P c -> (forall a, preserves P (k a)) -> preserves P (bind c k).
Proof.
  intros Hc Hk m H. rewrite final_bind.
  specialize (Hc m H). destruct (c m) as [a m'|e m']; cbn in Hc.
  - apply Hk, Hc.
  - exact Hc.
Qed.

(** Splits an operation into its primitives; what is left are the
    conditions on the field updates. *)
Ltac preserve_step :=
  lazymatch goal with
  | |- preserves _ (bind _ _) => apply preserves_bind; [ | intros ? ]
  | |- preserves _ (ret _) => apply preserves_ret
  | |- preserves _ (throw _) => apply preserves_throw
  | |- preserves _ get => apply preserves_get
  | |- preserves _ (modify _) => apply preserves_modify; intros ? ?
  | |- preserves _ (match ?x with _ => _ end) => destruct x
  end.

Lemma preserves_fresh (P : Machine -> Prop) :
  stable P -> preserves P fresh.
Proof.
  intros HS m H. cbn. apply (HS m H). apply Nat.le_succ_diag_r.
Qed.

Lemma preserves_on_action (P : Machine -> Prop) k f :
  stable P -> preserves P (on_action k f).
Proof.
  intros HS m H. unfold on_action, the_action. rewrite final_bind. cbn.
  destruct (_animations m k); cbn; [apply (HS m H) | exact H].
Qed.

Lemma preserves_crossFadeFrom (P : Machine -> Prop) i o d w :
  stable P -> preserves P (crossFadeFrom i o d w).
Proof. intros HS m H. cbn. apply (HS m H). Qed.

Ltac preserve HS :=
  unfold the_action, require_parent;
  repeat first
    [ lazymatch goal with
      | |- preserves _ fresh => apply preserves_fresh; exact HS
      | |- preserves _ (on_action _ _) => apply preserves_on_action; exact HS
      | |- preserves _ (crossFadeFrom _ _ _ _) =>
          apply preserves_crossFadeFrom; exact HS
      | H : ?P ?m |- ?P (with_listeners _ ?m) => apply (HS m H)
      end
    | preserve_step ].

Lemma stable_hooks h : stable (fun m => hooks m = h).
Proof. intros m H. repeat split; intros; exact H. Qed.

Lemma stable_currentState c : stable (fun m => currentState m = c).
Proof. intros m H. repeat split; intros; exact H. Qed.

Lemma stable_states r : stable (fun m => forall k, _states m k = r k).
Proof. intros m H. repeat split; intros; apply H. Qed.

Lemma stable_next_oid n : stable (fun m => (n <= next_oid m)%nat).
Proof. intros m H. repeat split; intros; cbn; try exact H. lia. Qed.

Lemma loaded_set_action k a r : loaded r -> loaded (set_action k a r).
Proof.
  unfold loaded, set_action. intros (Hi & Hw & Hr & Hd).
  repeat split.
  - destruct (STATES_eqb idle k); [destruct (r idle)|]; congruence.
  - destruct (STATES_eqb walking k); [destruct (r walking)|]; congruence.
  - destruct (STATES_eqb run k); [destruct (r run)|]; congruence.
  - destruct (STATES_eqb dance k); [destruct (r dance)|]; congruence.
Qed.

Lemma stable_loaded : stable (fun m => loaded (_animations m)).
Proof.
  intros m H. split; [|split; [|split]]; intros; cbn; try exact H.
  apply loaded_set_action, H.
Qed.

Lemma stable_and (P R : Machine -> Prop) :
  stable P -> stable R -> stable (fun m => P m /\ R m).
Proof.
  intros HP HR m [H1 H2]. repeat split; intros;
    first [apply (HP m H1) | apply (HR m H2)]; assumption.
Qed.

(** ** What the hooks leave alone *)

Lemma preserves_new_State (P : Machine -> Prop) c p :
  stable P -> preserves P (new_State c p).
Proof. intros HS. destruct c; cbn [new_State]; preserve HS. Qed.

Lemma preserves_IdleState_Enter (P : Machine -> Prop) this prevState :
  stable P -> preserves P (IdleState_Enter this prevState).
Proof. intros HS. unfold IdleState_Enter. preserve HS. Qed.

Lemma preserves_WalkState_Enter (P : Machine -> Prop) this prevState :
  stable P -> preserves P (WalkState_Enter this prevState).
Proof. intros HS. unfold WalkState_Enter. preserve HS. Qed.

Lemma preserves_RunState_Enter (P : Machine -> Prop) this prevState :
  stable P -> preserves P (RunState_Enter this prevState).
Proof. intros HS. unfold RunState_Enter. preserve HS. Qed.

Lemma preserves_DanceState_Enter (P : Machine -> Prop) this prevState :
  stable P -> preserves P (DanceState_Enter this prevState).
Proof. intros HS. unfold DanceState_Enter. preserve HS. Qed.

Lemma preserves_Cleanup (P : Machine -> Prop) this :
  stable P -> preserves P (_Cleanup this).
Proof. intros HS. unfold _Cleanup. preserve HS. Qed.

Lemma preserves_RunState_Exit (P : Machine -> Prop) this :
  stable P -> preserves P (RunState_Exit this).
Proof. intros HS. unfold RunState_Exit. preserve HS. Qed.


(** Reads a field through the record updates. *)
Tactic Notation "fields" :=
  cbn [with_hooks with_currentState with_animations with_listeners
       with_crossFades with_next_oid hooks currentState _states next_oid
       _animations _listeners crossFades].
Tactic Notation "fields" "in" ne_hyp_list(H) :=
  cbn [with_hooks with_currentState with_animations with_listeners
       with_crossFades with_next_oid hooks currentState _states next_oid
       _animations _listeners crossFades] in H.

Lemma hook_frame_refl m : hook_frame m m.
Proof.
  unfold hook_frame.
  split; [|split; [|split; [|split]]]; auto.
Qed.

Lemma stable_hook_frame m : stable (hook_frame m).
Proof.
  unfold hook_frame.
  repeat apply stable_and.
  - apply stable_hooks.
  - apply stable_currentState.
  - apply (stable_states (_states m)).
  - apply stable_next_oid.
  - intros m' H. split; [|split; [|split]]; intros; cbn; auto.
    apply loaded_set_action; auto.
Qed.

Lemma hook_frame_trans m1 m2 m3 :
  hook_frame m1 m2 -> hook_frame m2 m3 -> hook_frame m1 m3.
Proof.
  unfold hook_frame. intros (A1 & A2 & A3 & A4 & A5) (B1 & B2 & B3 & B4 & B5).
  split; [|split; [|split; [|split]]].
  - congruence.
  - congruence.
  - intros k. rewrite B3. apply A3.
  - lia.
  - auto.
Qed.

(** ** [Exit] *)

Lemma Exit_unfold p m :
  Exit p m
  = match class p with
    | IdleState | WalkState => ret tt
    | RunState => RunState_Exit p
    | DanceState => _Cleanup p
    end (with_hooks (hooks m ++ [Exit_called p]) m).
Proof. reflexivity. Qed.

Lemma Exit_final p m :
  hook_frame (with_hooks (hooks m ++ [Exit_called p]) m) (final (Exit p m)).
Proof.
  rewrite Exit_unfold.
  set (m1 := with_hooks _ m).
  assert (HS := stable_hook_frame m1).
  destruct (class p).
  - apply hook_frame_refl.
  - apply hook_frame_refl.
  - apply preserves_RunState_Exit; [exact HS | apply hook_frame_refl].
  - apply preserves_Cleanup; [exact HS | apply hook_frame_refl].
Qed.

Lemma Exit_returns p m :
  constructed p -> loaded (_animations m) ->
  exists m', Exit p m = Returned tt m'.
Proof.
  intros [Hp Hn] (Hi & Hw & Hr & Hd). rewrite Exit_unfold.
  unfold Name in *. destruct (class p) eqn:Hc; cbn in Hn.
  - eexists; reflexivity.
  - eexists; reflexivity.
  - unfold RunState_Exit, Name. rewrite Hp, Hc, Hn.
    unfold the_action, bind, get. cbn.
    destruct (_animations m run); [|congruence]. eexists; reflexivity.
  - unfold _Cleanup, require_parent. rewrite Hp.
    unfold the_action, bind, get. cbn.
    destruct (_animations m dance); [|congruence]. eexists; reflexivity.
Qed.

(** ** [Enter] and the construction of a state *)

Lemma Enter_unfold s prevState m :
  Enter s prevState m
  = match class s with
    | IdleState => IdleState_Enter s prevState
    | WalkState => WalkState_Enter s prevState
    | RunState => RunState_Enter s prevState
    | DanceState => DanceState_Enter s prevState
    end (with_hooks (hooks m ++ [Enter_called s prevState]) m).
Proof. reflexivity. Qed.

Lemma Enter_final s prevState m :
  hook_frame (with_hooks (hooks m ++ [Enter_called s prevState]) m)
             (final (Enter s prevState m)).
Proof.
  rewrite Enter_unfold.
  set (m1 := with_hooks _ m).
  assert (HS := stable_hook_frame m1).
  destruct (class s).
  - apply preserves_IdleState_Enter; [exact HS | apply hook_frame_refl].
  - apply preserves_WalkState_Enter; [exact HS | apply hook_frame_refl].
  - apply preserves_RunState_Enter; [exact HS | apply hook_frame_refl].
  - apply preserves_DanceState_Enter; [exact HS | apply hook_frame_refl].
Qed.

Lemma new_State_returns c par m :
  exists s k,
    new_State c par m = Returned s (with_next_oid k m)
    /\ oid s = next_oid m /\ (next_oid m < k)%nat
    /\ class s = c /\ _parent s = par /\ _name s = class_name c.
Proof.
  destruct c; cbn; eexists; eexists; (split; [reflexivity|]); cbn;
    repeat split; solve [reflexivity | lia].
Qed.

Lemma construct_final nameState prevState m c :
  _states m nameState = Some c ->
  exists s,
    class s = c /\ constructed s
    /\ hooks (final (SetState_construct nameState prevState m))
       = hooks m ++ [Enter_called s prevState]
    /\ currentState (final (SetState_construct nameState prevState m)) = Some s
    /\ (next_oid m <= oid s
        < next_oid (final (SetState_construct nameState prevState m)))%nat
    /\ (forall k,
          _states (final (SetState_construct nameState prevState m)) k
          = _states m k)
    /\ (loaded (_animations m) ->
        loaded (_animations (final (SetState_construct nameState prevState m)))).
Proof.
  intros Hc.
  destruct (new_State_returns c (Some the_machine) m)
    as (s & k & Hnew & Hoid & Hk & Hcls & Hpar & Hname).
  exists s.
  assert (Hfin : final (SetState_construct nameState prevState m)
                 = final (Enter s prevState
                            (with_currentState (Some s) (with_next_oid k m)))).
  { unfold SetState_construct. rewrite final_bind. cbn [get].
    rewrite Hc, final_bind, Hnew, final_bind. reflexivity. }
  rewrite Hfin.
  destruct (Enter_final s prevState
              (with_currentState (Some s) (with_next_oid k m)))
    as (F1 & F2 & F3 & F4 & F5).
  fields in F1 F2 F3 F4 F5.
  split; [exact Hcls|]. split.
  { split; [exact Hpar | rewrite Hname, Hcls; reflexivity]. }
  split; [exact F1|]. split; [exact F2|]. split; [lia|].
  split; [exact F3 | exact F5].
Qed.

(** ** The shape of every [SetState] call *)

Lemma STATES_eqb_eq a b : STATES_eqb a b = true <-> a = b.
Proof. destruct a, b; cbn; split; congruence. Qed.

Lemma STATES_eqb_neq a b : STATES_eqb a b = false <-> a <> b.
Proof. destruct a, b; cbn; split; congruence. Qed.

Lemma SetState_effect_holds nameState m :
  SetState_effect nameState m (final (SetState nameState m)).
Proof.
  unfold SetState. rewrite final_bind. cbn [get].
  destruct (currentState m) as [p|] eqn:Hcur.
  - destruct (STATES_eqb (Name p) nameState) eqn:Heq.
    + apply effect_same_name with p; auto. apply STATES_eqb_eq, Heq.
    + apply STATES_eqb_neq in Heq.
      rewrite final_bind.
      destruct (Exit_final p m) as (E1 & E2 & E3 & E4 & E5).
      fields in E1 E2 E3 E4 E5.
      destruct (Exit p m) as [[] m1|e m1] eqn:HExit; cbn [final] in *.
      * destruct (_states m nameState) as [c|] eqn:Hreg.
        -- assert (Hreg1 : _states m1 nameState = Some c)
             by (rewrite E3; exact Hreg).
           destruct (construct_final nameState (Some p) m1 c Hreg1)
             as (s & C1 & C2 & C3 & C4 & C5 & C6 & C7).
           apply effect_replace with p s c; auto.
           ++ rewrite C3, E1, <- app_assoc. reflexivity.
           ++ lia.
           ++ intros k. rewrite C6. apply E3.
        -- assert (Hreg1 : _states m1 nameState = None)
             by (rewrite E3; exact Hreg).
           unfold SetState_construct. rewrite final_bind. cbn [get].
           rewrite Hreg1. cbn.
           apply effect_exit_then_throw with p; auto.
           rewrite E2; exact Hcur.
      * apply effect_exit_then_throw with p; auto.
        -- left. rewrite HExit. reflexivity.
        -- rewrite E2; exact Hcur.
  - destruct (_states m nameState) as [c|] eqn:Hreg.
    + destruct (construct_final nameState None m c Hreg)
        as (s & C1 & C2 & C3 & C4 & C5 & C6 & C7).
      apply effect_first with s c; auto.
    + unfold SetState_construct. rewrite final_bind. cbn [get].
      rewrite Hreg. cbn. apply effect_throw_unregistered; auto.
Qed.

(** ** Sequences of calls *)

Lemma SetState_calls_cons n names m :
  SetState_calls (n :: names) m
  = SetState_calls names (final (SetState n m)).
Proof. reflexivity. Qed.

Lemma active_after_app t1 t2 a :
  active_after (t1 ++ t2) a = active_after t2 (active_after t1 a).
Proof.
  revert a. induction t1 as [|h t1 IH]; intros a; cbn.
  - reflexivity.
  - destruct h; apply IH.
Qed.

Lemma filter_same_object_nil p l :
  (forall a, In a l -> oid a = oid p) ->
  filter (fun a => negb (same_object a p)) l = [].
Proof.
  intros H. induction l as [|a l IH]; cbn.
  - reflexivity.
  - unfold same_object at 1. rewrite (H a (or_introl eq_refl)), Nat.eqb_refl.
    cbn. apply IH. intros b Hb. apply H. right. exact Hb.
Qed.

Lemma prefix_of_app {A : Type} (t rest l ext : list A) :
  t ++ rest = l ++ ext ->
  (exists r, l = t ++ r) \/ (exists e, t = l ++ e /\ ext = e ++ rest).
Proof.
  revert l. induction t as [|a t IH]; intros l H.
  - left. exists l. reflexivity.
  - destruct l as [|b l].
    + right. exists (a :: t). split; [reflexivity | symmetry; exact H].
    + cbn in H. injection H as -> H.
      destruct (IH l H) as [[r ->] | (e & -> & ->)].
      * left. exists r. reflexivity.
      * right. exists e. split; reflexivity.
Qed.

Lemma one_active_initial animations : one_active (initial_machine animations).
Proof.
  split.
  - intros t rest H. cbn in H. symmetry in H.
    apply app_eq_nil in H. destruct H as [-> _]. cbn. lia.
  - cbn. intros a [].
Qed.

Lemma one_active_exited m p :
  one_active m -> currentState m = Some p ->
  active_after (hooks m ++ [Exit_called p]) [] = [].
Proof.
  intros [_ H2] Hcur. rewrite active_after_app. cbn.
  apply filter_same_object_nil. intros a Ha.
  destruct (H2 a Ha) as (q & Hq & Hoid). congruence.
Qed.

Lemma one_active_step n m :
  one_active m -> one_active (final (SetState n m)).
Proof.
  intros Hinv. pose proof Hinv as [H1 H2].
  destruct (SetState_effect_holds n m)
    as [p Hcur Hn Hm | p Hcur Hn Hwhy Hh Hc' _ _
        | p s c Hcur Hn Hreg Hh Hc' _ _ _ _ _
        | Hcur Hreg Hm
        | s c Hcur Hreg Hh Hc' _ _ _ _ _].
  - rewrite Hm. exact Hinv.
  - pose proof (one_active_exited m p Hinv Hcur) as Hx.
    split.
    + intros t rest Ht. rewrite Hh in Ht.
      symmetry in Ht. apply prefix_of_app in Ht. destruct Ht as [[r Ht] | (l & Ht & Hl)].
      * apply (H1 t r Ht).
      * destruct l as [|h l].
        -- rewrite app_nil_r in Ht. subst t. apply (H1 (hooks m) []).
           symmetry; apply app_nil_r.
        -- injection Hl as <- Hl.
           destruct l; [|discriminate].
           subst t. rewrite Hx. cbn. lia.
    + rewrite Hh, Hx. intros a [].
  - pose proof (one_active_exited m p Hinv Hcur) as Hx.
    assert (Hfull : active_after
                      (hooks m ++ [Exit_called p; Enter_called s (Some p)]) []
                    = [s]).
    { change [Exit_called p; Enter_called s (Some p)]
        with ([Exit_called p] ++ [Enter_called s (Some p)]).
      rewrite app_assoc, active_after_app, Hx. reflexivity. }
    split.
    + intros t rest Ht. rewrite Hh in Ht.
      symmetry in Ht. apply prefix_of_app in Ht. destruct Ht as [[r Ht] | (l & Ht & Hl)].
      * apply (H1 t r Ht).
      * destruct l as [|h1 l].
        -- rewrite app_nil_r in Ht. subst t. apply (H1 (hooks m) []).
           symmetry; apply app_nil_r.
        -- injection Hl as <- Hl. destruct l as [|h2 l].
           ++ subst t. rewrite Hx. cbn. lia.
           ++ injection Hl as <- Hl.
              destruct l; [|discriminate].
              subst t. rewrite Hfull. cbn. lia.
    + rewrite Hh, Hfull. intros a [<- | []]. exists s. split; auto.
  - rewrite Hm. exact Hinv.
  - assert (Hnone : active_after (hooks m) [] = []).
    { destruct (active_after (hooks m) []) as [|a l]; [reflexivity|].
      destruct (H2 a) as (q & Hq & _); [left; reflexivity|].
      congruence. }
    assert (Hfull : active_after (hooks m ++ [Enter_called s None]) [] = [s]).
    { rewrite active_after_app, Hnone. reflexivity. }
    split.
    + intros t rest Ht. rewrite Hh in Ht.
      symmetry in Ht. apply prefix_of_app in Ht. destruct Ht as [[r Ht] | (l & Ht & Hl)].
      * apply (H1 t r Ht).
      * destruct l as [|h1 l].
        -- rewrite app_nil_r in Ht. subst t. apply (H1 (hooks m) []).
           symmetry; apply app_nil_r.
        -- injection Hl as <- Hl.
           destruct l; [|discriminate].
           subst t. rewrite Hfull. cbn. lia.
    + rewrite Hh, Hfull. intros a [<- | []]. exists s. split; auto.
Qed.

Lemma one_active_calls names m :
  one_active m -> one_active (SetState_calls names m).
Proof.
  revert m. induction names as [|n names IH]; intros m H.
  - exact H.
  - rewrite SetState_calls_cons. apply IH, one_active_step, H.
Qed.

(** ** Runs that keep to the registered names *)

Lemma last_state_snoc ss s : last_state (ss ++ [s]) = Some s.
Proof.
  induction ss as [|a ss IH]; cbn.
  - reflexivity.
  - rewrite IH. reflexivity.
Qed.

Lemma succession_snoc ss prevState s :
  succession prevState (ss ++ [s])
  = succession prevState ss
    ++ succession (match last_state ss with
                   | Some l => Some l
                   | None => prevState
                   end) [s].
Proof.
  revert prevState. induction ss as [|a ss IH]; intros prevState.
  - cbn. reflexivity.
  - cbn [app succession last_state]. rewrite IH, <- !app_assoc. cbn [app].
    destruct (last_state ss); reflexivity.
Qed.

Lemma last_state_none ss : last_state ss = None -> ss = [].
Proof.
  destruct ss as [|a ss]; cbn; [reflexivity|].
  destruct (last_state ss); discriminate.
Qed.

Lemma last_state_in ss p : last_state ss = Some p -> In p ss.
Proof.
  induction ss as [|a ss IH]; cbn; [discriminate|].
  destruct (last_state ss) as [l|].
  - intros H. right. apply IH. exact H.
  - intros [= ->]. left. reflexivity.
Qed.

Lemma in_succession_initial animations :
  in_succession (initial_machine animations) [].
Proof.
  unfold in_succession. cbn. repeat split; constructor.
Qed.

Lemma in_succession_extend m m' ss s :
  in_succession m ss ->
  hooks m' = hooks m ++ succession (currentState m) [s] ->
  currentState m' = Some s ->
  constructed s ->
  (next_oid m <= oid s < next_oid m')%nat ->
  in_succession m' (ss ++ [s]).
Proof.
  intros (Hh & Hnd & Hcur & Hall) Hh' Hcur' Hcons Hoid.
  unfold in_succession.
  split; [|split; [|split]].
  - rewrite Hh', Hh, succession_snoc, Hcur.
    destruct (last_state ss); reflexivity.
  - rewrite map_app. cbn.
    apply NoDup_app.
    + exact Hnd.
    + constructor; [intros [] | constructor].
    + intros x Hx [<- | []].
      apply in_map_iff in Hx. destruct Hx as (q & Hq & Hin).
      rewrite Forall_forall in Hall. destruct (Hall q Hin) as [Hlt _]. lia.
  - rewrite last_state_snoc. exact Hcur'.
  - apply Forall_app. split.
    + eapply Forall_impl; [|exact Hall]. cbn. intros q [Hlt Hq].
      split; [lia | exact Hq].
    + constructor; [|constructor]. split; [lia | exact Hcons].
Qed.

Lemma in_succession_step n m ss :
  (forall k, _states m k = CharacterFSM_states k) ->
  loaded (_animations m) ->
  CharacterFSM_states n <> None ->
  in_succession m ss ->
  exists ss',
    in_succession (final (SetState n m)) ss'
    /\ (forall k, _states (final (SetState n m)) k = CharacterFSM_states k)
    /\ loaded (_animations (final (SetState n m))).
Proof.
  intros Hregs Hload Hn Hin.
  rewrite <- Hregs in Hn.
  destruct (SetState_effect_holds n m)
    as [p Hcur Hne Hm | p Hcur Hne Hwhy _ _ _ _
        | p s c Hcur Hne Hreg Hh Hc' Hcls Hcons Hoid Hst Hld
        | Hcur Hreg Hm
        | s c Hcur Hreg Hh Hc' Hcls Hcons Hoid Hst Hld].
  - rewrite Hm. exists ss. auto.
  - exfalso. destruct Hwhy as [Hthrew | Hnone]; [|contradiction].
    destruct Hin as (_ & _ & Hlast & Hall).
    rewrite Hcur in Hlast. symmetry in Hlast. apply last_state_in in Hlast.
    rewrite Forall_forall in Hall. destruct (Hall p Hlast) as [_ Hp].
    destruct (Exit_returns p m Hp Hload) as (m1 & Hret).
    rewrite Hret in Hthrew. discriminate.
  - exists (ss ++ [s]). split; [|split].
    + apply in_succession_extend with m; auto.
      rewrite Hh, Hcur. reflexivity.
    + intros k. rewrite Hst. apply Hregs.
    + apply Hld, Hload.
  - contradiction.
  - exists (ss ++ [s]). split; [|split].
    + apply in_succession_extend with m; auto.
      rewrite Hh, Hcur. reflexivity.
    + intros k. rewrite Hst. apply Hregs.
    + apply Hld, Hload.
Qed.

Lemma in_succession_calls names m ss :
  (forall k, _states m k = CharacterFSM_states k) ->
  loaded (_animations m) ->
  Forall (fun n => CharacterFSM_states n <> None) names ->
  in_succession m ss ->
  exists ss', in_succession (SetState_calls names m) ss'.
Proof.
  revert m ss. induction names as [|n names IH]; intros m ss Hregs Hload Hn Hin.
  - exists ss. exact Hin.
  - rewrite SetState_calls_cons. inversion Hn as [|? ? Hn1 Hn2]; subst.
    destruct (in_succession_step n m ss Hregs Hload Hn1 Hin)
      as (ss1 & Hin1 & Hregs1 & Hload1).
    apply (IH _ ss1 Hregs1 Hload1 Hn2 Hin1).
Qed.

Lemma replacement_hooks nameState m p s :
  currentState m = Some p ->
  currentState (final (SetState nameState m)) = Some s ->
  s <> p ->
  Name p <> nameState
  /\ hooks (final (SetState nameState m))
     = hooks m ++ [Exit_called p; Enter_called s (Some p)].
Proof.
  intros Hcur Hcur' Hsp.
  destruct (SetState_effect_holds nameState m)
    as [p0 Hc0 Hne Hm | p0 Hc0 Hne _ _ Hc1 _ _
        | p0 s0 c Hc0 Hne _ Hh Hc1 _ _ _ _ _
        | Hc0 _ _
        | s0 c Hc0 _ _ _ _ _ _ _ _].
  - rewrite Hm in Hcur'. congruence.
  - congruence.
  - rewrite Hc0 in Hcur. injection Hcur as ->.
    rewrite Hc1 in Hcur'. injection Hcur' as ->. auto.
  - congruence.
  - congruence.
Qed.

Lemma active_after_succession_from p ss :
  active_after (succession (Some p) ss) [p]
  = match last_state ss with
    | Some l => [l]
    | None => [p]
    end.
Proof.
  revert p. induction ss as [|s ss IH]; intros p.
  - reflexivity.
  - cbn [succession app active_after filter last_state].
    unfold same_object at 1. rewrite Nat.eqb_refl. cbn [negb].
    rewrite IH. destruct (last_state ss); reflexivity.
Qed.

Lemma active_after_succession ss :
  active_after (succession None ss) []
  = match last_state ss with
    | Some l => [l]
    | None => []
    end.
Proof.
  destruct ss as [|s ss].
  - reflexivity.
  - cbn [succession app active_after last_state].
    rewrite active_after_succession_from.
    destruct (last_state ss); reflexivity.
Qed.

Lemma same_object_refl a : same_object a a = true.
Proof. unfold same_object. apply Nat.eqb_refl. Qed.

Lemma same_object_false a b : oid a <> oid b -> same_object a b = false.
Proof. intros H. unfold same_object. apply Nat.eqb_neq, H. Qed.

Lemma Exit_calls_outside s p ss :
  ~ In (oid s) (map oid (p :: ss)) ->
  Exit_calls s (succession (Some p) ss) = 0%nat.
Proof.
  revert p. induction ss as [|a ss IH]; intros p Hout.
  - reflexivity.
  - unfold Exit_calls.
    cbn [succession app filter is_Exit_of].
    rewrite same_object_false.
    + apply IH. intros Hin. apply Hout. right. exact Hin.
    + intros Heq. apply Hout. left. exact Heq.
Qed.

Lemma Exit_calls_succession_from s p ss :
  NoDup (map oid (p :: ss)) ->
  In s (p :: ss) ->
  (last_state (p :: ss) = Some s ->
   Exit_calls s (succession (Some p) ss) = 0%nat)
  /\ (last_state (p :: ss) <> Some s ->
      Exit_calls s (succession (Some p) ss) = 1%nat).
Proof.
  revert p. induction ss as [|a ss IH]; intros p Hnd Hin.
  - destruct Hin as [<- | []]. split; [reflexivity|].
    intros H. exfalso. apply H. reflexivity.
  - assert (Hlast : last_state (p :: a :: ss) = last_state (a :: ss)).
    { cbn [last_state]. destruct (last_state ss); reflexivity. }
    rewrite Hlast.
    inversion Hnd as [|x l Hp Hnd']; subst.
    unfold Exit_calls. cbn [succession app filter is_Exit_of].
    destruct Hin as [<- | Hin].
    + rewrite same_object_refl. cbn [List.length].
      fold (Exit_calls p (succession (Some a) ss)).
      rewrite (Exit_calls_outside p a ss Hp).
      split; [|reflexivity].
      intros Hl. exfalso. apply last_state_in in Hl.
      apply Hp. apply (in_map oid (a :: ss) p Hl).
    + rewrite same_object_false.
      * apply (IH a Hnd' Hin).
      * intros Heq. apply Hp. rewrite Heq.
        apply (in_map oid (a :: ss) s Hin).
Qed.

Lemma Exit_calls_succession s ss :
  NoDup (map oid ss) ->
  In s ss ->
  (last_state ss = Some s -> Exit_calls s (succession None ss) = 0%nat)
  /\ (last_state ss <> Some s -> Exit_calls s (succession None ss) = 1%nat).
Proof.
  intros Hnd Hin. destruct ss as [|p ss]; [destruct Hin|].
  assert (Hsame : Exit_calls s (succession None (p :: ss))
                  = Exit_calls s (succession (Some p) ss)) by reflexivity.
  rewrite Hsame. apply Exit_calls_succession_from; assumption.
Qed.

(** C1, as the code has it.  Whatever names a sequence of [SetState] calls
    requests: after every prefix of the hook calls at most one state has
    been entered and not exited, and a call that replaces the current state
    by another one makes two hook calls, [Exit] on the outgoing state and
    then [Enter] on the incoming one with the outgoing state as argument.
    When the names are registered ones and the animations are loaded, the
    state entered and not exited is the current one, and the whole trace is
    a succession of distinct state objects in which [Exit] is called
    exactly once on each replaced state, just before its successor is
    entered with it, and never on the current one. *)
Theorem SetState_registered_sequence_exits_once :
  forall (animations : AnimationsRecord) (names : list STATES),
    let m := SetState_calls names (initial_machine animations) in
    (forall t rest,
        hooks m = t ++ rest -> (List.length (active_after t []) <= 1)%nat)
    /\ (forall nameState p s,
           currentState m = Some p ->
           currentState (final (SetState nameState m)) = Some s ->
           s <> p ->
           Name p <> nameState
           /\ hooks (final (SetState nameState m))
              = hooks m ++ [Exit_called p; Enter_called s (Some p)])
    /\ (loaded animations ->
        Forall (fun n => CharacterFSM_states n <> None) names ->
        active_after (hooks m) []
        = match currentState m with
          | Some s => [s]
          | None => []
          end
        /\ exists ss,
             hooks m = succession None ss
             /\ NoDup (map oid ss)
             /\ currentState m = last_state ss
             /\ forall s,
                  In s ss ->
                  (currentState m = Some s ->
                   Exit_calls s (hooks m) = 0%nat)
                  /\ (currentState m <> Some s ->
                      Exit_calls s (hooks m) = 1%nat)).
Proof.
  intros animations names m. split; [|split].
  - apply (one_active_calls names (initial_machine animations)).
    apply one_active_initial.
  - intros nameState p s. apply replacement_hooks.
  - intros Hload Hnames.
    destruct (in_succession_calls names (initial_machine animations) []
                (fun k => eq_refl) Hload Hnames
                (in_succession_initial animations))
      as (ss & Hh & Hnd & Hcur & _).
    fold m in Hh, Hcur. split.
    + rewrite Hh, Hcur. apply active_after_succession.
    + exists ss. split; [exact Hh|]. split; [exact Hnd|].
      split; [exact Hcur|].
      intros s Hin. rewrite Hh, Hcur.
      apply Exit_calls_succession; assumption.
Qed.

(** C2.  Requesting the name of the current state returns at once with the
    machine as it was: no hook is called, the current state object, the
    actions and the cross-fades are the same. *)
Theorem SetState_same_name_is_noop :
  forall (m : Machine) (p : State),
    currentState m = Some p ->
    SetState (Name p) m = Returned tt m.
Proof.
  intros m p Hcur. unfold SetState, bind, get. rewrite Hcur.
  replace (STATES_eqb (Name p) (Name p)) with true; [reflexivity|].
  symmetry. apply STATES_eqb_eq. reflexivity.
Qed.

(** ** Running a transition on a ready machine *)

Lemma constructed_class p :
  constructed p -> class p = match Name p with
                             | idle => IdleState
                             | walking => WalkState
                             | run => RunState
                             | dance => DanceState
                             | jump => class p
                             end
                   /\ _parent p = Some the_machine
                   /\ _name p = Name p
                   /\ Name p <> jump.
Proof.
  intros [Hp Hn]. unfold Name.
  destruct (class p); cbn in Hn; rewrite ?Hn; repeat split; auto; discriminate.
Qed.

(** Symbolic execution of a call: unfold, compute, look up what the
    hypotheses say about the machine and the outgoing state. *)
Ltac lookups :=
  repeat match goal with
    | H : _animations ?m ?k = Some _ |- context [_animations ?m ?k] =>
        rewrite H
    | H : Name ?p = _ |- context [Name ?p] => rewrite H
    | H : class ?p = _ |- context [class ?p] => rewrite H
    | H : _parent ?p = _ |- context [_parent ?p] => rewrite H
    | H : _name ?p = _ |- context [_name ?p] => rewrite H
    | H : forall k, _states ?m k = _ |- context [_states ?m ?k] =>
        rewrite (H k)
    | H : currentState ?m = _ |- context [currentState ?m] => rewrite H
    end.

Ltac run :=
  unfold SetState, SetState_construct, Exit, Enter, _Cleanup, RunState_Exit,
    IdleState_Enter, WalkState_Enter, RunState_Enter, DanceState_Enter,
    new_State, on_action, the_action, crossFadeFrom, require_parent, log_hook,
    fresh, bind, get, modify, ret, throw;
  repeat (progress
            (cbn -[Qmult Qdiv Qplus Qminus Qopp Qinv Qeq Qle Qlt
                   addEventListener removeEventListener];
             lookups)).

(** The hypotheses every transition on a ready machine starts from. *)
Ltac ready_machine H Hcur :=
  let Hregs := fresh "Hregs" in
  let Hi := fresh "Hi" in let Hw := fresh "Hw" in
  let Hr := fresh "Hr" in let Hd := fresh "Hd" in
  let Hcons := fresh "Hcons" in
  destruct H as (Hregs & (Hi & Hw & Hr & Hd) & Hcons);
  let Hcls := fresh "Hcls" in
  let Hpar := fresh "Hpar" in
  let Hname := fresh "Hname" in
  let Hnj := fresh "Hnj" in
  destruct (constructed_class _ (Hcons _ Hcur)) as (Hcls & Hpar & Hname & Hnj);
  clear Hcons;
  let ei := fresh "ei" in let ew := fresh "ew" in
  let er := fresh "er" in let ed := fresh "ed" in
  match type of Hi with
  | ?r idle <> None =>
      destruct (r idle) as [ei|] eqn:Ei; [clear Hi|congruence];
      destruct (r walking) as [ew|] eqn:Ew; [clear Hw|congruence];
      destruct (r run) as [er|] eqn:Er; [clear Hr|congruence];
      destruct (r dance) as [ed|] eqn:Ed; [clear Hd|congruence]
  end.

(** C3.  From Walking to Run and from Run to Walking the call returns and
    leaves the incoming action at the outgoing action's time multiplied by
    (incoming clip duration / outgoing clip duration). *)
Theorem same_family_transition_keeps_phase :
  forall (m : Machine) (p : State) (nameState : STATES)
         (out inc : AnimationAction.t),
    ready m ->
    currentState m = Some p ->
    same_family (Name p) nameState = true ->
    action_of m (Name p) = Some out ->
    action_of m nameState = Some inc ->
    0 < duration (AnimationAction.getClip out) ->
    0 < duration (AnimationAction.getClip inc) ->
    threw (SetState nameState m) = false
    /\ exists a,
         action_of (final (SetState nameState m)) nameState = Some a
         /\ AnimationAction.time a
            = AnimationAction.time out
              * (duration (AnimationAction.getClip inc)
                 / duration (AnimationAction.getClip out)).
Proof.
  intros m p nameState out inc Hready Hcur Hfam Hout Hinc _ _.
  ready_machine Hready Hcur.
  unfold action_of in *.
  destruct (Name p) eqn:Hp; destruct nameState; try discriminate Hfam.
  - rewrite Ew in Hout. rewrite Er in Hinc.
    injection Hout as <-. injection Hinc as <-.
    run. split; [reflexivity|]. eexists. split; reflexivity.
  - rewrite Er in Hout. rewrite Ew in Hinc.
    injection Hout as <-. injection Hinc as <-.
    run. split; [reflexivity|]. eexists. split; reflexivity.
Qed.

(** C4, as the code has it.  A transition with a previous state asks for one
    cross-fade, from the outgoing action, with time-scale warping, over a
    duration fixed by the state that is entered: 0.5 s into Idle and into
    Walking (Run to Walking included), 0.2 s into Run and into Dance. *)
Theorem crossFade_duration_by_entered_state :
  forall (m : Machine) (p : State) (nameState : STATES),
    ready m ->
    currentState m = Some p ->
    Name p <> nameState ->
    CharacterFSM_states nameState <> None ->
    threw (SetState nameState m) = false
    /\ crossFades (final (SetState nameState m))
       = crossFades m
         ++ [{| fadeIn := nameState;
                fadeOut := Name p;
                fadeDuration := match nameState with
                                | idle | walking => 0.5
                                | _ => 0.2
                                end;
                warp := true |}].
Proof.
  intros m p nameState Hready Hcur Hne Hreg.
  ready_machine Hready Hcur.
  destruct (Name p) eqn:Hp, nameState;
    try (exfalso; apply Hne; reflexivity);
    try (exfalso; apply Hreg; reflexivity);
    try (exfalso; apply Hnj; reflexivity);
    run; split; reflexivity.
Qed.

(** C5, as the code has it.  A transition with a previous state outside the
    Walk/Run pair leaves the incoming action enabled at time 0.  Into Idle,
    Walking and Run its weight and time scale are set to 1.0; into Dance
    the action is reset instead, which leaves its weight and time scale as
    they were. *)
Theorem other_transitions_restart_incoming_action :
  forall (m : Machine) (p : State) (nameState : STATES)
         (inc : AnimationAction.t),
    ready m ->
    currentState m = Some p ->
    Name p <> nameState ->
    CharacterFSM_states nameState <> None ->
    same_family (Name p) nameState = false ->
    action_of m nameState = Some inc ->
    threw (SetState nameState m) = false
    /\ exists a,
         action_of (final (SetState nameState m)) nameState = Some a
         /\ AnimationAction.time a == 0
         /\ AnimationAction.enabled a = true
         /\ (nameState <> dance ->
             AnimationAction.weight a == 1.0
             /\ AnimationAction.timeScale a == 1.0)
         /\ (nameState = dance ->
             AnimationAction.weight a = AnimationAction.weight inc
             /\ AnimationAction.timeScale a = AnimationAction.timeScale inc).
Proof.
  intros m p nameState inc Hready Hcur Hne Hreg Hfam Hinc.
  ready_machine Hready Hcur.
  unfold action_of in *.
  destruct (Name p) eqn:Hp; destruct nameState;
    try (exfalso; apply Hne; reflexivity);
    try (exfalso; apply Hreg; reflexivity);
    try (exfalso; apply Hnj; reflexivity);
    try discriminate Hfam;
    rewrite ?Ei, ?Ew, ?Er, ?Ed in Hinc; injection Hinc as <-;
    run; (split; [reflexivity|]); eexists; (split; [reflexivity|]);
    cbn; repeat split; try reflexivity; try congruence.
Qed.

(** C9.  A name without a registered constructor makes [SetState] throw; the
    current state stays the one it was. *)
Theorem SetState_unregistered_throws :
  forall (m : Machine) (nameState : STATES),
    _states m nameState = None ->
    (forall p, currentState m = Some p -> Name p <> nameState) ->
    exists e m',
      SetState nameState m = Threw e m'
      /\ currentState m' = currentState m.
Proof.
  intros m nameState Hreg Hname.
  unfold SetState, bind at 1, get.
  destruct (currentState m) as [p|] eqn:Hcur.
  - specialize (Hname p eq_refl). apply STATES_eqb_neq in Hname.
    rewrite Hname. unfold bind at 1.
    destruct (Exit_final p m) as (_ & E2 & E3 & _).
    fields in E2 E3.
    destruct (Exit p m) as [[] m1|e m1]; cbn [final] in E2, E3.
    + unfold SetState_construct, bind, get. rewrite E3, Hreg.
      exists TypeError, m1. split; [reflexivity | congruence].
    + exists e, m1. split; [reflexivity | congruence].
  - unfold SetState_construct, bind, get. rewrite Hreg.
    exists TypeError, m. split; [reflexivity | assumption].
Qed.

(** ** The "finished" listeners *)

Lemma removeEventListener_fresh f c ls :
  Forall (fun l => (fn l < f)%nat) ls ->
  removeEventListener {| fn := f; code := c |} ls = ls.
Proof.
  induction 1 as [|l ls Hl _ IH]; cbn.
  - reflexivity.
  - unfold same_fn. cbn.
    destruct (Nat.eqb_spec f (fn l)); [lia|]. rewrite IH. reflexivity.
Qed.

Lemma addEventListener_fresh f c ls :
  Forall (fun l => (fn l < f)%nat) ls ->
  addEventListener {| fn := f; code := c |} ls
  = ls ++ [{| fn := f; code := c |}].
Proof.
  intros H. unfold addEventListener.
  replace (existsb (same_fn {| fn := f; code := c |}) ls) with false;
    [reflexivity|].
  symmetry. induction H as [|l ls Hl _ IH]; cbn.
  - reflexivity.
  - unfold same_fn at 1. cbn.
    destruct (Nat.eqb_spec f (fn l)); [lia|]. exact IH.
Qed.

Lemma listeners_known_older m n :
  listeners_known m -> (next_oid m <= n)%nat ->
  Forall (fun l => (fn l < n)%nat) (_listeners m).
Proof.
  unfold listeners_known. intros H Hn.
  eapply Forall_impl; [|exact H]. cbn. intros l [Hl _]. lia.
Qed.

Lemma listeners_known_later m m' :
  listeners_known m -> _listeners m' = _listeners m ->
  (next_oid m <= next_oid m')%nat ->
  listeners_known m'.
Proof.
  unfold listeners_known. intros H Hl Hn. rewrite Hl.
  eapply Forall_impl; [|exact H]. cbn. intros l [Hlt Ho].
  split; [lia | exact Ho].
Qed.

Lemma ready_after m m' :
  ready m ->
  (forall k, _states m' k = _states m k) ->
  loaded (_animations m') ->
  (forall s, currentState m' = Some s -> constructed s) ->
  ready m'.
Proof.
  intros (Hregs & _ & _) Hst Hl Hc. split; [|split]; auto.
  intros k. rewrite Hst. apply Hregs.
Qed.

(** Closes the readiness of a machine obtained by symbolic execution. *)
Ltac ready_again Hregs Hcons :=
  split; [intros k; fields; apply Hregs|];
  split;
  [ unfold loaded; cbn; lookups; repeat split; discriminate
  | fields; intros s' Hs';
    first [ injection Hs' as <-; split; reflexivity
          | exact (Hcons s' Hs') ] ].

Lemma enter_dance m :
  settled m ->
  exists m1 s,
    SetState dance m = Returned tt m1
    /\ ready m1 /\ listeners_known m1
    /\ List.length (_listeners m1) = S (List.length (_listeners m))
    /\ currentState m1 = Some s.
Proof.
  intros (Hready & Hknown & p & Hcur & Hp).
  pose proof (listeners_known_older m (S (next_oid m)) Hknown
                (Nat.le_succ_diag_r _)) as Hold.
  pose proof Hready as (_ & _ & Hcons).
  ready_machine Hready Hcur.
  run. rewrite (addEventListener_fresh _ _ _ Hold).
  eexists. eexists. split; [reflexivity|].
  split; [ready_again Hregs Hcons|].
  split; [|split; [|reflexivity]].
  - unfold listeners_known. fields. apply Forall_app. split.
    + eapply Forall_impl; [|exact Hknown]. cbn. intros l [Hlt Ho].
      split; [lia | exact Ho].
    + constructor; [|constructor]. cbn. split; [lia|].
      eexists. split; [reflexivity|]. split; reflexivity.
  - fields. rewrite length_app. cbn. lia.
Qed.

Lemma finished_listener m owner p :
  ready m -> listeners_known m ->
  currentState m = Some p ->
  constructed owner ->
  exists m' q,
    _Finished owner m = Returned tt m'
    /\ ready m' /\ listeners_known m'
    /\ _listeners m' = _listeners m
    /\ currentState m' = Some q /\ Name q = idle.
Proof.
  intros Hready Hknown Hcur [Hopar _].
  pose proof (listeners_known_older m (next_oid m) Hknown (Nat.le_refl _))
    as Hold0.
  pose proof (listeners_known_older m (S (next_oid m)) Hknown
                (Nat.le_succ_diag_r _)) as Hold1.
  pose proof Hready as (_ & _ & Hcons).
  ready_machine Hready Hcur.
  unfold _Finished.
  destruct (Name p) eqn:Hp; try (exfalso; apply Hnj; reflexivity);
    run;
    rewrite ?(removeEventListener_fresh _ _ _ Hold0);
    rewrite ?(removeEventListener_fresh _ _ _ Hold1);
    eexists; eexists; (split; [reflexivity|]).
  all: split; [ready_again Hregs Hcons|].
  all: split;
    [|split; [reflexivity|split; [first [reflexivity | exact Hcur]|]]].
  all: try (apply listeners_known_later with m;
            [exact Hknown|reflexivity|cbn; lia]).
  all: first [reflexivity | exact Hp].
Qed.

Lemma invoke_all_known ls m p :
  Forall (fun l => exists owner,
                     code l = call_Finished owner /\ constructed owner) ls ->
  ready m -> listeners_known m ->
  currentState m = Some p ->
  exists m' q,
    invoke_all ls m = Returned tt m'
    /\ ready m' /\ listeners_known m'
    /\ _listeners m' = _listeners m
    /\ currentState m' = Some q
    /\ (ls <> [] -> Name q = idle).
Proof.
  intros Hls. revert m p.
  induction Hls as [|l ls (owner & Hcode & Howner) _ IH];
    intros m p Hready Hknown Hcur.
  - exists m, p. cbn [invoke_all].
    split; [reflexivity|]. split; [exact Hready|]. split; [exact Hknown|].
    split; [reflexivity|]. split; [exact Hcur|].
    intros H. exfalso. apply H. reflexivity.
  - destruct (finished_listener m owner p Hready Hknown Hcur Howner)
      as (m1 & q1 & Hrun1 & Hready1 & Hknown1 & Hl1 & Hcur1 & Hq1).
    destruct (IH m1 q1 Hready1 Hknown1 Hcur1)
      as (m2 & q2 & Hrun2 & Hready2 & Hknown2 & Hl2 & Hcur2 & Hq2).
    exists m2, q2.
    split.
    { cbn [invoke_all]. unfold bind, invoke. rewrite Hcode, Hrun1. exact Hrun2. }
    split; [exact Hready2|]. split; [exact Hknown2|].
    split; [congruence|]. split; [exact Hcur2|].
    intros _. destruct ls as [|l' ls'].
    + cbn in Hrun2. injection Hrun2 as <-.
      rewrite Hcur1 in Hcur2. injection Hcur2 as <-. exact Hq1.
    + apply Hq2. discriminate.
Qed.

Lemma dance_cycle_settled m :
  settled m ->
  exists m',
    dance_cycle m = Returned tt m'
    /\ settled m'
    /\ List.length (_listeners m') = S (List.length (_listeners m)).
Proof.
  intros Hsettled.
  destruct (enter_dance m Hsettled)
    as (m1 & s & Hrun1 & Hready1 & Hknown1 & Hlen1 & Hcur1).
  assert (Hls : Forall (fun l => exists owner,
                          code l = call_Finished owner /\ constructed owner)
                       (_listeners m1)).
  { eapply Forall_impl; [|exact Hknown1]. cbn. intros l [_ H]. exact H. }
  destruct (invoke_all_known (_listeners m1) m1 s Hls Hready1 Hknown1 Hcur1)
    as (m2 & q & Hrun2 & Hready2 & Hknown2 & Hl2 & Hcur2 & Hq).
  exists m2. split.
  { unfold dance_cycle, bind at 1. rewrite Hrun1.
    unfold dispatch_finished, bind, get. exact Hrun2. }
  split.
  - split; [exact Hready2|]. split; [exact Hknown2|].
    exists q. split; [exact Hcur2|]. apply Hq.
    destruct (_listeners m1); [discriminate Hlen1 | discriminate].
  - rewrite Hl2. exact Hlen1.
Qed.

(** C6, on the code.  Every completed Dance activation leaves one more
    listener on the mixer: after [n] activations from a settled machine
    there are [n] more than before, because [_Cleanup] hands
    [removeEventListener] a function that was never registered. *)
Theorem Dance_listeners_accumulate :
  forall (n : nat) (m : Machine),
    settled m ->
    exists m',
      dance_cycles n m = Returned tt m'
      /\ List.length (_listeners m') = (List.length (_listeners m) + n)%nat.
Proof.
  induction n as [|n IH]; intros m Hsettled.
  - exists m. split; [reflexivity | lia].
  - destruct (dance_cycle_settled m Hsettled) as (m1 & Hrun1 & Hs1 & Hlen1).
    destruct (IH m1 Hs1) as (m2 & Hrun2 & Hlen2).
    exists m2. split.
    + cbn [dance_cycles]. unfold bind. rewrite Hrun1. exact Hrun2.
    + lia.
Qed.

(** ** Kinematics *)

Lemma Math_sign_pos q : 0 < q -> Math_sign q = 1.
Proof.
  unfold Math_sign, Qlt. destruct q as [n d]. cbn. intros H.
  replace (Z.sgn n) with 1%Z; [reflexivity|].
  symmetry. apply Z.sgn_pos. lia.
Qed.

Lemma Math_sign_neg q : q < 0 -> Math_sign q = (-1 # 1).
Proof.
  unfold Math_sign, Qlt. destruct q as [n d]. cbn. intros H.
  replace (Z.sgn n) with (-1)%Z; [reflexivity|].
  symmetry. apply Z.sgn_neg. lia.
Qed.

Lemma Math_sign_zero q : q == 0 -> Math_sign q = 0.
Proof.
  unfold Math_sign, Qeq. destruct q as [n d]. cbn. intros H.
  replace n with 0%Z by lia. reflexivity.
Qed.

(** The clamp of lines 505-507, for a raw value [q] and a bound [a]. *)
Lemma clamp_spec q a :
  let c := Math_sign q * Math_min (Math_abs q) (Math_abs a) in
  Qabs c <= Qabs a
  /\ Qabs c <= Qabs q
  /\ (0 <= q -> 0 <= c)
  /\ (q <= 0 -> c <= 0)
  /\ (Qabs q <= Qabs a -> c == q)
  /\ (Qabs a <= Qabs q -> Qabs c == Qabs a).
Proof.
  cbv zeta. unfold Math_min, Math_abs.
  pose proof (Qabs_nonneg q) as Hq. pose proof (Qabs_nonneg a) as Ha.
  destruct (Q.min_spec (Qabs q) (Qabs a)) as [[Hlt Hmin] | [Hle Hmin]].
  - destruct (Q_dec q 0) as [[Hneg | Hpos] | Hz].
    + rewrite (Math_sign_neg q Hneg), Hmin.
      rewrite (Qabs_neg q) in * by lra.
      setoid_replace ((-1 # 1) * - q) with q by ring.
      rewrite (Qabs_neg q) by lra.
      repeat split; intros; lra.
    + rewrite (Math_sign_pos q Hpos), Hmin.
      rewrite (Qabs_pos q) in * by lra.
      setoid_replace (1 * q) with q by ring.
      rewrite (Qabs_pos q) by lra.
      repeat split; intros; lra.
    + rewrite (Math_sign_zero q Hz), Hmin.
      setoid_replace (0 * Qabs q) with 0 by ring.
      rewrite Hz in *. cbn. repeat split; intros; lra.
  - destruct (Q_dec q 0) as [[Hneg | Hpos] | Hz].
    + rewrite (Math_sign_neg q Hneg), Hmin.
      rewrite (Qabs_neg q) in * by lra.
      setoid_replace ((-1 # 1) * Qabs a) with (- Qabs a) by ring.
      rewrite Qabs_opp, (Qabs_pos (Qabs a)) by lra.
      repeat split; intros; lra.
    + rewrite (Math_sign_pos q Hpos), Hmin.
      rewrite (Qabs_pos q) in * by lra.
      setoid_replace (1 * Qabs a) with (Qabs a) by ring.
      rewrite (Qabs_pos (Qabs a)) by lra.
      repeat split; intros; lra.
    + rewrite (Math_sign_zero q Hz), Hmin.
      setoid_replace (0 * Qabs a) with 0 by ring.
      rewrite Hz in *. cbn in *. repeat split; intros; lra.
Qed.

(** C8.  With the constructor's deceleration constants and a non-negative
    elapsed time, the frame deceleration is velocity times constant times
    elapsed time on each axis, except that its forward component is that
    product cut down to the magnitude of the forward velocity when it is
    larger; adding it to the velocity never carries the forward velocity
    across zero. *)
Theorem frame_deceleration_clamped :
  forall (velocity : Vector3.t) (timeInSeconds : Q),
    0 <= timeInSeconds ->
    let fd := frameDecceleration velocity decceleration0 timeInSeconds in
    let raw := Vector3.z velocity * (-5.0) * timeInSeconds in
    Vector3.x fd = Vector3.x velocity * (-0.0005) * timeInSeconds
    /\ Vector3.y fd = Vector3.y velocity * (-0.0001) * timeInSeconds
    /\ Vector3.z fd
       = Math_sign raw * Math_min (Math_abs raw) (Math_abs (Vector3.z velocity))
    /\ Qabs (Vector3.z fd) <= Qabs (Vector3.z velocity)
    /\ (Qabs raw <= Qabs (Vector3.z velocity) -> Vector3.z fd == raw)
    /\ (Qabs (Vector3.z velocity) <= Qabs raw ->
        Qabs (Vector3.z fd) == Qabs (Vector3.z velocity))
    /\ (0 <= Vector3.z velocity ->
        0 <= Vector3.z (Vector3.add velocity fd))
    /\ (Vector3.z velocity <= 0 ->
        Vector3.z (Vector3.add velocity fd) <= 0).
Proof.
  intros velocity dt Hdt fd raw.
  assert (Hz : Vector3.z fd
               = Math_sign raw
                 * Math_min (Math_abs raw) (Math_abs (Vector3.z velocity)))
    by reflexivity.
  destruct (clamp_spec raw (Vector3.z velocity))
    as (Hbound & Hraw & Hpos & Hneg & Hsmall & Hlarge).
  rewrite <- Hz in Hbound, Hraw, Hpos, Hneg, Hsmall, Hlarge.
  split; [reflexivity|]. split; [reflexivity|]. split; [exact Hz|].
  split; [exact Hbound|]. split; [exact Hsmall|].
  assert (Hrawsign : (0 <= Vector3.z velocity -> raw <= 0)
                     /\ (Vector3.z velocity <= 0 -> 0 <= raw)).
  { unfold raw. split; intros H.
    - setoid_replace (Vector3.z velocity * -5.0 * dt)
        with (- (5 * (Vector3.z velocity * dt))) by ring.
      assert (0 <= Vector3.z velocity * dt) by (apply Qmult_le_0_compat; lra).
      lra.
    - setoid_replace (Vector3.z velocity * -5.0 * dt)
        with (5 * ((- Vector3.z velocity) * dt)) by ring.
      assert (0 <= (- Vector3.z velocity) * dt)
        by (apply Qmult_le_0_compat; lra).
      lra. }
  destruct Hrawsign as [Hs1 Hs2].
  split; [|split].
  - exact Hlarge.
  - intros Hv. cbn [Vector3.add Vector3.z]. fold fd.
    specialize (Hs1 Hv). specialize (Hneg Hs1).
    rewrite (Qabs_neg (Vector3.z fd)) in Hbound by exact Hneg.
    rewrite (Qabs_pos (Vector3.z velocity)) in Hbound by exact Hv.
    lra.
  - intros Hv. cbn [Vector3.add Vector3.z]. fold fd.
    specialize (Hs2 Hv). specialize (Hpos Hs2).
    rewrite (Qabs_pos (Vector3.z fd)) in Hbound by exact Hpos.
    rewrite (Qabs_neg (Vector3.z velocity)) in Hbound by exact Hv.
    lra.
Qed.

Section TickProperties.

Variable Quaternion : Type.
Variable setFromAxisAngle : Vector3.t -> Q -> Quaternion.
Variable multiply : Quaternion -> Quaternion -> Quaternion.
Variable applyQuaternion : Vector3.t -> Quaternion -> Vector3.t.
Variable normalize : Vector3.t -> Vector3.t.
Variable mixer_update : Q -> AnimationsRecord -> AnimationsRecord * bool.

Local Notation "'tick''" :=
  (tick setFromAxisAngle multiply applyQuaternion normalize mixer_update).

(** What a tick that gets past [Update] makes of the velocity and of the
    orientation. *)
Lemma tick_moves (c : BasicCharacterController Quaternion) dt obj m1 :
  _target c = Some obj ->
  Update dt (_input c) (_stateMachine c) = Returned tt m1 ->
  _velocity (final (tick' dt c))
  = accelerate (acc (_acceleration c) (_input c) m1) (_input c) dt
      (Vector3.add (_velocity c)
         (frameDecceleration (_velocity c) (_decceleration c) dt))
  /\ exists obj',
       _target (final (tick' dt c)) = Some obj'
       /\ quaternion obj'
          = yaw setFromAxisAngle multiply (_acceleration c) (_input c) dt
              (quaternion obj).
Proof.
  intros Htarget HUpdate. unfold tick. rewrite Htarget, HUpdate.
  destruct (mixer_step mixer_update dt m1) as [[] m2|e m2]; cbn [final].
  - split; [reflexivity|]. eexists. split; reflexivity.
  - split; [reflexivity|]. eexists. split; reflexivity.
Qed.

Lemma Update_dancing dt k m s :
  currentState m = Some s -> constructed s -> Name s = dance ->
  Update dt k m = Returned tt m /\ is_dancing m = true.
Proof.
  intros Hcur Hs Hname.
  destruct (constructed_class s Hs) as (Hcls & _).
  rewrite Hname in Hcls.
  unfold Update, is_dancing, bind, get. rewrite Hcur, Hcls, Hname.
  split; reflexivity.
Qed.

(** C7.  In a tick that starts in the Dance state the acceleration vector
    is zero whatever the modifier, and the velocity the tick leaves is the
    one it leaves with the movement keys and the modifier released. *)
Theorem Dance_ignores_movement_keys :
  forall (c : BasicCharacterController Quaternion) (dt : Q)
         (k : keys) (s : State),
    currentState (_stateMachine c) = Some s ->
    constructed s ->
    Name s = dance ->
    Vector3.eqv (acc (_acceleration c) k (_stateMachine c))
                (Vector3.mk 0 0 0)
    /\ Vector3.eqv
         (_velocity (final (tick' dt (with_input k c))))
         (_velocity (final (tick' dt (with_input (no_movement k) c)))).
Proof.
  intros c dt k s Hcur Hs Hname.
  assert (Hacc : forall k',
             Vector3.eqv (acc (_acceleration c) k' (_stateMachine c))
                         (Vector3.mk 0 0 0)).
  { intros k'.
    destruct (Update_dancing dt k' (_stateMachine c) s Hcur Hs Hname)
      as [_ Hd].
    unfold acc. rewrite Hd. unfold Vector3.eqv.
    destruct (shift k'); cbn; repeat split; ring. }
  split; [apply Hacc|].
  destruct (_target c) as [obj|] eqn:Htarget.
  - destruct (Update_dancing dt k (_stateMachine c) s Hcur Hs Hname)
      as [HU1 _].
    destruct (Update_dancing dt (no_movement k) (_stateMachine c) s
                Hcur Hs Hname) as [HU2 _].
    destruct (tick_moves (with_input k c) dt obj (_stateMachine c)
                Htarget HU1) as [-> _].
    destruct (tick_moves (with_input (no_movement k) c) dt obj
                (_stateMachine c) Htarget HU2) as [-> _].
    cbn [with_input _acceleration _input _velocity _decceleration].
    destruct (Hacc k) as (_ & _ & Hz).
    cbn [Vector3.z] in Hz.
    unfold accelerate, no_movement, Vector3.eqv.
    cbn [forward backward].
    destruct (forward k), (backward k);
      cbn [Vector3.set_z Vector3.x Vector3.y Vector3.z];
      repeat split; try reflexivity; rewrite Hz; ring.
  - unfold tick. cbn [with_input _target]. rewrite Htarget. cbn.
    unfold Vector3.eqv. repeat split; reflexivity.
Qed.

(** C10.  In a tick that gets past [Update], each held turn key turns the
    character by 4.0 * PI * dt * 0.25 (left) or 4.0 * -PI * dt * 0.25
    (right) about the vertical axis, whatever the modifier and the
    state; the modifier and Dance only scale the forward component of the
    acceleration that is added to the velocity. *)
Theorem yaw_uses_base_acceleration :
  forall (c : BasicCharacterController Quaternion) (dt : Q)
         (obj : Object3D Quaternion) (m1 : Machine),
    _target c = Some obj ->
    _acceleration c = acceleration0 ->
    Update dt (_input c) (_stateMachine c) = Returned tt m1 ->
    let k := _input c in
    let turned_left :=
      if left k
      then multiply (quaternion obj)
             (setFromAxisAngle (Vector3.mk 0 1 0)
                (4.0 * Math_PI * dt * 0.25))
      else quaternion obj in
    let turned :=
      if right k
      then multiply turned_left
             (setFromAxisAngle (Vector3.mk 0 1 0)
                (4.0 * - Math_PI * dt * 0.25))
      else turned_left in
    (exists obj',
        _target (final (tick' dt c)) = Some obj'
        /\ quaternion obj' = turned)
    /\ 4.0 * - Math_PI * dt * 0.25 == - (4.0 * Math_PI * dt * 0.25)
    /\ Vector3.z (acc acceleration0 k m1)
       == 25.0 * (if shift k then 2 else 1)
               * (if is_dancing m1 then 0 else 1)
    /\ _velocity (final (tick' dt c))
       = accelerate (acc acceleration0 k m1) k dt
           (Vector3.add (_velocity c)
              (frameDecceleration (_velocity c) (_decceleration c) dt)).
Proof.
  intros c dt obj m1 Htarget Hacc HUpdate k turned_left turned.
  destruct (tick_moves c dt obj m1 Htarget HUpdate)
    as (Hv & obj' & Ht & Hq).
  rewrite Hacc in Hv, Hq.
  split; [|split; [|split]].
  - exists obj'. split; [exact Ht|]. rewrite Hq. reflexivity.
  - ring.
  - unfold acc. destruct (shift k), (is_dancing m1); cbn; ring.
  - exact Hv.
Qed.

End TickProperties.

(** ** The examples *)

Ltac ready_example :=
  split; [intros k; reflexivity|];
  split;
  [ unfold loaded; cbn; repeat split; discriminate
  | intros s Hs; vm_compute in Hs; injection Hs as <-; split; reflexivity ].

Lemma example_animations_loaded : loaded example_animations.
Proof. unfold loaded; cbn; repeat split; discriminate. Qed.

Lemma machine_idle_ready : ready machine_idle.
Proof. ready_example. Qed.

Lemma machine_walking_mid_ready : ready machine_walking_mid.
Proof. ready_example. Qed.

Lemma machine_run_ready : ready machine_run.
Proof. ready_example. Qed.

Lemma machine_idle_warped_ready : ready machine_idle_warped.
Proof. ready_example. Qed.

Lemma machine_idle_settled : settled machine_idle.
Proof.
  split; [apply machine_idle_ready|]. split.
  - unfold listeners_known. cbn. constructor.
  - eexists. split; reflexivity.
Qed.

(** C1 as stated fails: after a request for the unregistered name "jump",
    which calls [Exit] on the idle state and throws, the request for
    Walking calls [Exit] on the same idle state again before [Enter]. *)
Lemma Exit_called_twice_after_unregistered_request :
  hooks (SetState_calls [idle; jump; walking]
           (initial_machine example_animations))
  = [Enter_called
       {| oid := 0; class := IdleState; _parent := Some the_machine;
          _name := idle; _FinishedCallback := None |} None;
     Exit_called
       {| oid := 0; class := IdleState; _parent := Some the_machine;
          _name := idle; _FinishedCallback := None |};
     Exit_called
       {| oid := 0; class := IdleState; _parent := Some the_machine;
          _name := idle; _FinishedCallback := None |};
     Enter_called
       {| oid := 1; class := WalkState; _parent := Some the_machine;
          _name := walking; _FinishedCallback := None |}
       (Some {| oid := 0; class := IdleState; _parent := Some the_machine;
                _name := idle; _FinishedCallback := None |})]
  /\ Exit_calls
       {| oid := 0; class := IdleState; _parent := Some the_machine;
          _name := idle; _FinishedCallback := None |}
       (hooks (SetState_calls [idle; jump; walking]
                 (initial_machine example_animations)))
     = 2%nat
  /\ threw (SetState jump machine_idle) = true.
Proof. repeat split; reflexivity. Qed.

(** Five registered names from the initial machine, and the replacement
    of Idle by Walking after the first call. *)
Lemma SetState_registered_sequence_witness :
  (active_after
     (hooks (SetState_calls [idle; walking; run; idle; dance]
               (initial_machine example_animations))) []
   = match currentState
             (SetState_calls [idle; walking; run; idle; dance]
                (initial_machine example_animations)) with
     | Some s => [s]
     | None => []
     end
   /\ exists ss,
        hooks (SetState_calls [idle; walking; run; idle; dance]
                 (initial_machine example_animations))
        = succession None ss
        /\ NoDup (map oid ss)
        /\ currentState (SetState_calls [idle; walking; run; idle; dance]
                           (initial_machine example_animations))
           = last_state ss
        /\ forall s,
             In s ss ->
             (currentState (SetState_calls [idle; walking; run; idle; dance]
                              (initial_machine example_animations))
              = Some s ->
              Exit_calls s
                (hooks (SetState_calls [idle; walking; run; idle; dance]
                          (initial_machine example_animations)))
              = 0%nat)
             /\ (currentState
                   (SetState_calls [idle; walking; run; idle; dance]
                      (initial_machine example_animations))
                 <> Some s ->
                 Exit_calls s
                   (hooks (SetState_calls [idle; walking; run; idle; dance]
                             (initial_machine example_animations)))
                 = 1%nat))
  /\ hooks (final (SetState walking machine_idle))
     = hooks machine_idle
       ++ [Exit_called
             {| oid := 0; class := IdleState; _parent := Some the_machine;
                _name := idle; _FinishedCallback := None |};
           Enter_called
             {| oid := 1; class := WalkState; _parent := Some the_machine;
                _name := walking; _FinishedCallback := None |}
             (Some {| oid := 0; class := IdleState;
                      _parent := Some the_machine;
                      _name := idle; _FinishedCallback := None |})].
Proof.
  pose proof (SetState_registered_sequence_exits_once example_animations
                [idle; walking; run; idle; dance]) as (_ & _ & Hrun).
  pose proof (SetState_registered_sequence_exits_once example_animations
                [idle]) as (_ & Hcall & _).
  assert (Hnames : Forall (fun n => CharacterFSM_states n <> None)
                     [idle; walking; run; idle; dance])
    by (repeat constructor; discriminate).
  assert (Hne : {| oid := 1; class := WalkState; _parent := Some the_machine;
                   _name := walking; _FinishedCallback := None |}
                <> {| oid := 0; class := IdleState;
                      _parent := Some the_machine;
                      _name := idle; _FinishedCallback := None |})
    by discriminate.
  split.
  - exact (Hrun example_animations_loaded Hnames).
  - exact (proj2 (Hcall walking _ _ eq_refl eq_refl Hne)).
Defined.

(** Walking requested of a machine that is walking. *)
Lemma SetState_same_name_witness :
  SetState walking machine_walking = Returned tt machine_walking.
Proof.
  exact (SetState_same_name_is_noop machine_walking
           {| oid := 1; class := WalkState; _parent := Some the_machine;
              _name := walking; _FinishedCallback := None |}
           eq_refl).
Defined.

(** Walking to Run, 0.4 s into a walking clip of 1.0 s, with a running
    clip of 0.75 s. *)
Lemma same_family_transition_witness :
  threw (SetState run machine_walking_mid) = false
  /\ exists a,
       action_of (final (SetState run machine_walking_mid)) run = Some a
       /\ AnimationAction.time a = 0.4 * (0.75 / 1.0).
Proof.
  refine (same_family_transition_keeps_phase machine_walking_mid
            {| oid := 1; class := WalkState; _parent := Some the_machine;
               _name := walking; _FinishedCallback := None |}
            run
            (AnimationAction.mk {| duration := 1.0 |} 0.4 true false 1.0 1.0
               LoopRepeat None false true)
            (AnimationAction.mk {| duration := 0.75 |} 0 true false 1 1
               LoopRepeat None false false)
            machine_walking_mid_ready eq_refl eq_refl eq_refl eq_refl _ _);
    cbn; lra.
Defined.

(** C4 as stated fails: Run to Walking is cross-faded over 0.5 s, not
    0.2 s. *)
Lemma Run_to_Walking_crossFade_is_half_second :
  option_map Name (currentState machine_run) = Some run
  /\ crossFades (final (SetState walking machine_run))
     = crossFades machine_run
       ++ [{| fadeIn := walking; fadeOut := run;
              fadeDuration := 0.5; warp := true |}]
  /\ ~ (0.5 == 0.2).
Proof.
  split; [reflexivity|]. split; [reflexivity|].
  intros H. discriminate H.
Qed.

(** Run to Walking, and Idle to Dance. *)
Lemma crossFade_duration_witness :
  (threw (SetState walking machine_run) = false
   /\ crossFades (final (SetState walking machine_run))
      = crossFades machine_run
        ++ [{| fadeIn := walking; fadeOut := run;
               fadeDuration := 0.5; warp := true |}])
  /\ (threw (SetState dance machine_idle) = false
      /\ crossFades (final (SetState dance machine_idle))
         = crossFades machine_idle
           ++ [{| fadeIn := dance; fadeOut := idle;
                  fadeDuration := 0.2; warp := true |}]).
Proof.
  split.
  - refine (crossFade_duration_by_entered_state machine_run
              {| oid := 2; class := RunState; _parent := Some the_machine;
                 _name := run; _FinishedCallback := None |}
              walking machine_run_ready eq_refl _ _); discriminate.
  - refine (crossFade_duration_by_entered_state machine_idle
              {| oid := 0; class := IdleState; _parent := Some the_machine;
                 _name := idle; _FinishedCallback := None |}
              dance machine_idle_ready eq_refl _ _); discriminate.
Defined.

(** C5 as stated fails: entering Dance leaves the dance action with the
    weight and the time scale it had, here 0.5 and 2. *)
Lemma Idle_to_Dance_keeps_weight_and_timeScale :
  option_map Name (currentState machine_idle_warped) = Some idle
  /\ exists a,
       action_of (final (SetState dance machine_idle_warped)) dance = Some a
       /\ AnimationAction.weight a = 0.5
       /\ AnimationAction.timeScale a = 2
       /\ ~ (AnimationAction.weight a == 1.0)
       /\ ~ (AnimationAction.timeScale a == 1.0).
Proof.
  split; [reflexivity|]. eexists. split; [reflexivity|].
  split; [reflexivity|]. split; [reflexivity|].
  split; intros H; discriminate H.
Qed.

(** Idle to Walking, and Idle to Dance with the warped dance action. *)
Lemma other_transitions_witness :
  (threw (SetState walking machine_idle) = false
   /\ exists a,
        action_of (final (SetState walking machine_idle)) walking = Some a
        /\ AnimationAction.time a == 0
        /\ AnimationAction.enabled a = true
        /\ AnimationAction.weight a == 1.0
        /\ AnimationAction.timeScale a == 1.0)
  /\ (threw (SetState dance machine_idle_warped) = false
      /\ exists a,
           action_of (final (SetState dance machine_idle_warped)) dance
           = Some a
           /\ AnimationAction.time a == 0
           /\ AnimationAction.enabled a = true
           /\ AnimationAction.weight a = 0.5
           /\ AnimationAction.timeScale a = 2).
Proof.
  split.
  - destruct (other_transitions_restart_incoming_action machine_idle
                {| oid := 0; class := IdleState; _parent := Some the_machine;
                   _name := idle; _FinishedCallback := None |}
                walking
                (AnimationAction.mk {| duration := 1.0 |} 0 true false 1 1
                   LoopRepeat None false false)
                machine_idle_ready eq_refl
                ltac:(discriminate) ltac:(discriminate) eq_refl eq_refl)
      as (Hret & a & Ha & Ht & He & Hset & _).
    split; [exact Hret|]. exists a.
    destruct (Hset ltac:(discriminate)) as [Hw Hts].
    repeat split; assumption.
  - destruct (other_transitions_restart_incoming_action machine_idle_warped
                {| oid := 0; class := IdleState; _parent := Some the_machine;
                   _name := idle; _FinishedCallback := None |}
                dance
                (AnimationAction.mk {| duration := 12.5 |} 0 true false 0.5 2
                   LoopRepeat None false false)
                machine_idle_warped_ready eq_refl
                ltac:(discriminate) ltac:(discriminate) eq_refl eq_refl)
      as (Hret & a & Ha & Ht & He & _ & Hkeep).
    split; [exact Hret|]. exists a.
    destruct (Hkeep eq_refl) as [Hw Hts].
    repeat split; assumption.
Defined.

(** Three Dance activations after load leave three listeners. *)
Lemma Dance_listeners_accumulate_witness :
  exists m',
    dance_cycles 3 machine_idle = Returned tt m'
    /\ List.length (_listeners m') = 3%nat.
Proof.
  exact (Dance_listeners_accumulate 3 machine_idle machine_idle_settled).
Defined.

(** The two listeners left by two activations are the callbacks of the
    two Dance states, both still registered after both were exited. *)
Example two_Dance_cycles_leave_both_callbacks :
  map fn (_listeners (final (dance_cycles 2 machine_idle))) = [2; 7]%nat
  /\ option_map Name (currentState (final (dance_cycles 2 machine_idle)))
     = Some idle.
Proof. split; reflexivity. Qed.

(** Leaving Dance before the clip ends, by a direct request for Idle,
    keeps the listener as well. *)
Example interrupted_Dance_keeps_its_callback :
  map fn (_listeners machine_dance) = [2]%nat
  /\ map fn (_listeners (final (SetState idle machine_dance))) = [2]%nat
  /\ option_map Name (currentState (final (SetState idle machine_dance)))
     = Some idle.
Proof. repeat split; reflexivity. Qed.

(** "jump" requested of the idle machine. *)
Lemma SetState_jump_witness :
  exists e m',
    SetState jump machine_idle = Threw e m'
    /\ currentState m' = currentState machine_idle.
Proof.
  refine (SetState_unregistered_throws machine_idle jump eq_refl _).
  intros p Hp. vm_compute in Hp. injection Hp as <-. discriminate.
Defined.

(** A forward velocity of 3 over a tenth of a second. *)
Lemma frame_deceleration_witness :
  Qabs (Vector3.z (frameDecceleration (Vector3.mk 0 0 3) decceleration0 0.1))
  <= Qabs 3
  /\ 0 <= Vector3.z
            (Vector3.add (Vector3.mk 0 0 3)
               (frameDecceleration (Vector3.mk 0 0 3) decceleration0 0.1)).
Proof.
  destruct (frame_deceleration_clamped (Vector3.mk 0 0 3) 0.1
              ltac:(lra))
    as (_ & _ & _ & Hbound & _ & _ & Hpos & _).
  split; [exact Hbound|]. apply Hpos. cbn. lra.
Defined.

(** Dancing with every key held. *)
Lemma Dance_ignores_movement_keys_witness :
  Vector3.eqv
    (_velocity
       (final (toy_tick 0.1
                 (with_input (ControllerInput.mk true true true true true true)
                    (example_controller machine_dance released)))))
    (_velocity
       (final (toy_tick 0.1
                 (with_input
                    (no_movement
                       (ControllerInput.mk true true true true true true))
                    (example_controller machine_dance released))))).
Proof.
  unfold toy_tick.
  pose proof (Dance_ignores_movement_keys Q toy_setFromAxisAngle
                toy_multiply toy_applyQuaternion toy_normalize
                toy_mixer_update
                (example_controller machine_dance released) 0.1
                (ControllerInput.mk true true true true true true)
                {| oid := 1; class := DanceState;
                   _parent := Some the_machine; _name := dance;
                   _FinishedCallback := Some 2%nat |}) as H.
  assert (Hcur : currentState
                   (_stateMachine (example_controller machine_dance released))
                 = Some {| oid := 1; class := DanceState;
                           _parent := Some the_machine; _name := dance;
                           _FinishedCallback := Some 2%nat |})
    by reflexivity.
  exact (proj2 (H Hcur (conj eq_refl eq_refl) eq_refl)).
Defined.

Lemma Returned_final {S : Type} (o : Outcome S unit) :
  threw o = false -> o = Returned tt (final o).
Proof. destruct o as [[] m|e m]; [reflexivity | discriminate]. Qed.

(** Walking forward with the modifier and the left key held: the tick
    enters Run and turns by 4.0 * PI * 0.1 * 0.25. *)
Lemma yaw_witness :
  exists obj',
    _target
      (final (toy_tick 0.1
                (example_controller machine_walking
                   (ControllerInput.mk true false true false false true))))
    = Some obj'
    /\ quaternion obj' = 0 + 4.0 * Math_PI * 0.1 * 0.25.
Proof.
  unfold toy_tick.
  exact (proj1 (yaw_uses_base_acceleration Q toy_setFromAxisAngle
                  toy_multiply toy_applyQuaternion toy_normalize
                  toy_mixer_update
                  (example_controller machine_walking
                     (ControllerInput.mk true false true false false true))
                  0.1
                  {| quaternion := 0; position := Vector3.mk 0 0 0 |}
                  (final (Update 0.1
                            (ControllerInput.mk true false true false
                               false true)
                            machine_walking))
                  eq_refl eq_refl
                  (Returned_final
                     (Update 0.1
                        (ControllerInput.mk true false true false false true)
                        machine_walking)
                     eq_refl))).
Defined.

(* ================================================================== *)
(** * Further properties of the code *)

(** ** What every machine operation leaves alone *)

Lemma frame_stable_stable P : frame_stable P -> stable P.
Proof. intros [H _]. exact H. Qed.

Lemma preserves_log_hook P h : frame_stable P -> preserves P (log_hook h).
Proof.
  intros (_ & Hh & _). unfold log_hook. apply preserves_modify.
  intros m Hm. apply Hh, Hm.
Qed.

Lemma preserves_Exit P p : frame_stable P -> preserves P (Exit p).
Proof.
  intros HF. pose proof (frame_stable_stable P HF) as HS.
  unfold Exit. apply preserves_bind; [apply preserves_log_hook, HF|].
  intros _. destruct (class p).
  - apply preserves_ret.
  - apply preserves_ret.
  - apply preserves_RunState_Exit, HS.
  - apply preserves_Cleanup, HS.
Qed.

Lemma preserves_Enter P s prevState :
  frame_stable P -> preserves P (Enter s prevState).
Proof.
  intros HF. pose proof (frame_stable_stable P HF) as HS.
  unfold Enter. apply preserves_bind; [apply preserves_log_hook, HF|].
  intros _. destruct (class s).
  - apply preserves_IdleState_Enter, HS.
  - apply preserves_WalkState_Enter, HS.
  - apply preserves_RunState_Enter, HS.
  - apply preserves_DanceState_Enter, HS.
Qed.

Lemma preserves_SetState_construct P n prevState :
  frame_stable P -> preserves P (SetState_construct n prevState).
Proof.
  intros HF. pose proof (frame_stable_stable P HF) as HS.
  unfold SetState_construct. apply preserves_bind; [apply preserves_get|].
  intros m0. destruct (_states m0 n) as [c|].
  - apply preserves_bind; [apply preserves_new_State, HS|].
    intros st. apply preserves_bind.
    + apply preserves_modify. intros m Hm. apply HF, Hm.
    + intros _. apply preserves_Enter, HF.
  - apply preserves_throw.
Qed.

Lemma preserves_SetState P n : frame_stable P -> preserves P (SetState n).
Proof.
  intros HF. unfold SetState. apply preserves_bind; [apply preserves_get|].
  intros m0. destruct (currentState m0) as [p|].
  - destruct (STATES_eqb (Name p) n).
    + apply preserves_ret.
    + apply preserves_bind; [apply preserves_Exit, HF|].
      intros _. apply preserves_SetState_construct, HF.
  - apply preserves_SetState_construct, HF.
Qed.

Lemma preserves_Update P dt input : frame_stable P -> preserves P (Update dt input).
Proof.
  intros HF. unfold Update. apply preserves_bind; [apply preserves_get|].
  intros m0. destruct (currentState m0) as [s|]; [|apply preserves_ret].
  destruct (class s);
    unfold IdleState_Update, WalkState_Update, RunState_Update, require_parent;
    try apply preserves_ret;
    (apply preserves_bind;
     [destruct (_parent s); [apply preserves_ret | apply preserves_throw]|]);
    intros _;
    repeat match goal with
      | |- preserves _ (if ?b then _ else _) => destruct b
      | |- preserves _ (SetState _) => apply preserves_SetState, HF
      | |- preserves _ (ret _) => apply preserves_ret
      end.
Qed.

Lemma preserves_Finished P owner : frame_stable P -> preserves P (_Finished owner).
Proof.
  intros HF. pose proof (frame_stable_stable P HF) as HS.
  unfold _Finished. apply preserves_bind; [apply preserves_Cleanup, HS|].
  intros _. apply preserves_bind.
  - unfold require_parent. destruct (_parent owner);
      [apply preserves_ret | apply preserves_throw].
  - intros _. apply preserves_SetState, HF.
Qed.

Lemma preserves_invoke_all P ls : frame_stable P -> preserves P (invoke_all ls).
Proof.
  intros HF. induction ls as [|l ls IH]; cbn [invoke_all].
  - apply preserves_ret.
  - apply preserves_bind; [|intros _; exact IH].
    unfold invoke. destruct (code l).
    + apply preserves_Finished, HF.
    + apply preserves_ret.
Qed.

Lemma preserves_dispatch_finished P :
  frame_stable P -> preserves P dispatch_finished.
Proof.
  intros HF. unfold dispatch_finished.
  apply preserves_bind; [apply preserves_get|].
  intros m0. apply preserves_invoke_all, HF.
Qed.

Lemma frame_stable_clips k c :
  frame_stable (fun m => option_map clip (_animations m k) = c).
Proof.
  split; [|split]; try (intros; assumption).
  intros m H. split; [|split; [|split]]; intros; cbn; try exact H.
  unfold set_action. destruct (STATES_eqb k k0); [|exact H].
  destruct (_animations m k); exact H.
Qed.

Lemma frame_stable_states r :
  frame_stable (fun m => forall k, _states m k = r k).
Proof.
  split; [apply stable_states|]. split; intros; cbn; auto.
Qed.

Lemma frame_stable_loaded : frame_stable (fun m => loaded (_animations m)).
Proof.
  split; [apply stable_loaded|]. split; intros; cbn; auto.
Qed.

(** X1.  The animation record is read-only to the machine: a request for a
    state, an update and a "finished" event leave every key of the record
    present or absent as it was, with the clip it had. *)
Theorem animation_clips_are_never_replaced :
  forall (m : Machine) (k nameState : STATES) (dt : Q) (input : keys),
    option_map clip (_animations (final (SetState nameState m)) k)
    = option_map clip (_animations m k)
    /\ option_map clip (_animations (final (Update dt input m)) k)
       = option_map clip (_animations m k)
    /\ option_map clip (_animations (final (dispatch_finished m)) k)
       = option_map clip (_animations m k).
Proof.
  intros m k nameState dt input.
  pose proof (frame_stable_clips k (option_map clip (_animations m k))) as HF.
  split; [|split].
  - apply (preserves_SetState _ nameState HF m). reflexivity.
  - apply (preserves_Update _ dt input HF m). reflexivity.
  - apply (preserves_dispatch_finished _ HF m). reflexivity.
Qed.

(** ** Requests on a ready machine *)

Lemma CharacterFSM_states_class n c :
  CharacterFSM_states n = Some c -> class_name c = n.
Proof. destruct n; cbn; intros [= <-]; reflexivity. Qed.

Lemma constructed_Name s : constructed s -> Name s = class_name (class s).
Proof.
  intros [_ Hn]. unfold Name. rewrite Hn. destruct (class s); reflexivity.
Qed.

Lemma registered_request_enters :
  forall (m : Machine) (nameState : STATES),
    ready m ->
    CharacterFSM_states nameState <> None ->
    ready (final (SetState nameState m))
    /\ exists s,
         currentState (final (SetState nameState m)) = Some s
         /\ Name s = nameState.
Proof.
  intros m n Hready Hn. pose proof Hready as (Hregs & Hload & Hcons).
  assert (Hregs' : forall k, _states (final (SetState n m)) k
                             = CharacterFSM_states k).
  { apply (preserves_SetState _ n (frame_stable_states CharacterFSM_states) m).
    exact Hregs. }
  assert (Hload' : loaded (_animations (final (SetState n m)))).
  { apply (preserves_SetState _ n frame_stable_loaded m). exact Hload. }
  rewrite <- Hregs in Hn.
  destruct (SetState_effect_holds n m)
    as [p Hcur Hne Hm | p Hcur Hne Hwhy _ _ _ _
        | p s c Hcur Hne Hreg _ Hc' Hcls Hs _ _ _
        | Hcur Hreg Hm
        | s c Hcur Hreg _ Hc' Hcls Hs _ _ _].
  - rewrite Hm. split; [exact Hready|]. exists p. split; assumption.
  - exfalso. destruct Hwhy as [Hthrew | Hnone]; [|contradiction].
    destruct (Exit_returns p m (Hcons p Hcur) Hload) as (m1 & Hret).
    rewrite Hret in Hthrew. discriminate.
  - split.
    + split; [exact Hregs'|]. split; [exact Hload'|].
      intros s' Hs'. rewrite Hc' in Hs'. injection Hs' as <-. exact Hs.
    + exists s. split; [exact Hc'|].
      rewrite (constructed_Name s Hs), Hcls.
      apply CharacterFSM_states_class. rewrite <- Hregs. exact Hreg.
  - contradiction.
  - split.
    + split; [exact Hregs'|]. split; [exact Hload'|].
      intros s' Hs'. rewrite Hc' in Hs'. injection Hs' as <-. exact Hs.
    + exists s. split; [exact Hc'|].
      rewrite (constructed_Name s Hs), Hcls.
      apply CharacterFSM_states_class. rewrite <- Hregs. exact Hreg.
Qed.

(** The animations of a loaded record, by name. *)
Ltac loaded_entries Hload :=
  let Hi := fresh "Hi" in let Hw := fresh "Hw" in
  let Hr := fresh "Hr" in let Hd := fresh "Hd" in
  destruct Hload as (Hi & Hw & Hr & Hd);
  match type of Hi with
  | ?r idle <> None =>
      destruct (r idle) as [ei|] eqn:Ei; [clear Hi|congruence];
      destruct (r walking) as [ew|] eqn:Ew; [clear Hw|congruence];
      destruct (r run) as [er|] eqn:Er; [clear Hr|congruence];
      destruct (r dance) as [ed|] eqn:Ed; [clear Hd|congruence]
  end.

(** X2.  On a ready machine a request for a registered name always ends with
    a current state of that name, and the machine is ready again: the
    registrations are there, the animations are loaded, the current state
    is one [SetState] built. *)
Theorem SetState_registered_enters_requested :
  forall (m : Machine) (nameState : STATES),
    ready m ->
    CharacterFSM_states nameState <> None ->
    ready (final (SetState nameState m))
    /\ exists s,
         currentState (final (SetState nameState m)) = Some s
         /\ Name s = nameState.
Proof. exact registered_request_enters. Qed.

Lemma registered_request_returns :
  forall (m : Machine) (nameState : STATES),
    ready m ->
    CharacterFSM_states nameState <> None ->
    currentState m <> None \/ nameState <> run ->
    threw (SetState nameState m) = false.
Proof.
  intros m n Hready Hn Hwhich.
  destruct (currentState m) as [p|] eqn:Hcur.
  - ready_machine Hready Hcur.
    destruct (Name p) eqn:Hp; destruct n;
      try (exfalso; apply Hn; reflexivity);
      try (exfalso; apply Hnj; reflexivity);
      run; reflexivity.
  - destruct Hwhich as [H | Hrun]; [congruence|].
    destruct Hready as (Hregs & Hload & _). loaded_entries Hload.
    destruct n;
      try (exfalso; apply Hn; reflexivity);
      try (exfalso; apply Hrun; reflexivity);
      run; reflexivity.
Qed.

(** X3.  On a ready machine a request for a registered name returns without
    an exception, except the request for Run when no state is current. *)
Theorem SetState_registered_returns :
  forall (m : Machine) (nameState : STATES),
    ready m ->
    CharacterFSM_states nameState <> None ->
    currentState m <> None \/ nameState <> run ->
    threw (SetState nameState m) = false.
Proof. exact registered_request_returns. Qed.

(** X4.  The request for Run when no state is current throws a TypeError
    from [RunState.Enter], which reads the name of the missing previous
    state; by then the Run state is the current one and its [Enter] was
    called, no action was touched, and repeating the request returns
    without doing anything. *)
Theorem SetState_Run_first_throws :
  forall (m : Machine),
    currentState m = None ->
    _states m run = Some RunState ->
    exists m' s,
      SetState run m = Threw TypeError m'
      /\ currentState m' = Some s
      /\ Name s = run
      /\ hooks m' = hooks m ++ [Enter_called s None]
      /\ (forall k, action_of m' k = action_of m k)
      /\ crossFades m' = crossFades m
      /\ SetState run m' = Returned tt m'.
Proof.
  intros m Hcur Hreg.
  unfold SetState at 1, bind, get. rewrite Hcur.
  unfold SetState_construct, bind, get. rewrite Hreg.
  run. eexists. eexists. split; [reflexivity|].
  repeat split; reflexivity.
Qed.

(** X5.  A first request whose own animation is missing from the record
    throws a TypeError after the new state became the current one; the same
    request repeated, also once the animations are there, returns at the
    same-name guard, so the action of that state is not played. *)
Theorem SetState_before_load_sticks :
  forall (m : Machine) (nameState : STATES) (c : StateClass),
    currentState m = None ->
    _states m nameState = Some c ->
    _animations m (class_name c) = None ->
    exists m' s,
      SetState nameState m = Threw TypeError m'
      /\ currentState m' = Some s
      /\ class s = c
      /\ crossFades m' = crossFades m
      /\ _listeners m' = _listeners m
      /\ forall animations,
           SetState (Name s) (with_animations animations m')
           = Returned tt (with_animations animations m').
Proof.
  intros m n c Hcur Hreg Hmiss.
  unfold SetState at 1, bind, get. rewrite Hcur.
  unfold SetState_construct, bind, get. rewrite Hreg.
  destruct c; cbn [class_name] in Hmiss; run;
    rewrite ?Hmiss;
    (eexists; eexists; split; [reflexivity|]);
    repeat split; reflexivity.
Qed.

(** X6.  A first activation of Idle, Walking or Dance, with its animation
    in the record, returns, plays the action as it is and asks for no
    cross-fade; the time, weight, time scale and loop mode of the action
    are not written, not even for Dance. *)
Theorem SetState_first_activation_only_plays :
  forall (m : Machine) (nameState : STATES) (c : StateClass)
         (e : AnimationEntry),
    currentState m = None ->
    _states m nameState = Some c ->
    c <> RunState ->
    _animations m (class_name c) = Some e ->
    threw (SetState nameState m) = false
    /\ action_of (final (SetState nameState m)) (class_name c)
       = Some (AnimationAction.play (action e))
    /\ crossFades (final (SetState nameState m)) = crossFades m.
Proof.
  intros m n c e Hcur Hreg Hc He.
  unfold SetState at 1 2 3, bind, get. rewrite Hcur.
  unfold SetState_construct, bind, get. rewrite Hreg.
  destruct c; try (exfalso; apply Hc; reflexivity);
    cbn [class_name] in He |- *; run; unfold action_of; run;
    repeat split; reflexivity.
Qed.

(** X7.  On a ready machine a request leaves the actions of the states that
    take no part in it as they were: an action that belongs neither to the
    requested state nor to the current one keeps its time, weight, time
    scale and flags, and it is named by none of the cross-fades the request
    asks for, each of which fades the requested state's action in from the
    current state's. *)
Theorem SetState_leaves_the_other_actions_alone :
  forall (m : Machine) (nameState k : STATES),
    ready m ->
    k <> nameState ->
    (forall p, currentState m = Some p -> Name p <> k) ->
    action_of (final (SetState nameState m)) k = action_of m k
    /\ exists added,
         crossFades (final (SetState nameState m)) = crossFades m ++ added
         /\ Forall (fun cf =>
                      fadeIn cf = nameState
                      /\ option_map Name (currentState m)
                         = Some (fadeOut cf))
              added.
Proof.
  intros m n k Hready Hk Hout.
  destruct (currentState m) as [p|] eqn:Hcur.
  - specialize (Hout p eq_refl).
    ready_machine Hready Hcur.
    destruct (Name p) eqn:Hp; try (exfalso; apply Hnj; reflexivity);
      destruct n; run; unfold action_of;
      destruct k; try (exfalso; apply Hk; reflexivity);
      try (exfalso; apply Hout; reflexivity);
      run;
      (split; [reflexivity|]);
      first [ exists []; split; [symmetry; apply app_nil_r | constructor]
            | eexists; split;
              [reflexivity
              | constructor; [split; reflexivity | constructor]] ].
  - destruct Hready as (Hregs & Hload & _). loaded_entries Hload.
    destruct n; run; unfold action_of;
      destruct k; try (exfalso; apply Hk; reflexivity);
      run;
      (split; [reflexivity|]);
      exists []; (split; [symmetry; apply app_nil_r | constructor]).
Qed.

(** X8.  Entering Dance from another state configures the dance action as a
    one-shot: it is reset, set to loop once with one repetition and to
    clamp when finished, then played; and one listener, owned by the new
    Dance state, is added after those already on the mixer. *)
Theorem Dance_entry_is_one_shot :
  forall (m : Machine) (p : State) (d : AnimationAction.t),
    ready m ->
    listeners_known m ->
    currentState m = Some p ->
    Name p <> dance ->
    action_of m dance = Some d ->
    exists s f,
      currentState (final (SetState dance m)) = Some s
      /\ class s = DanceState
      /\ _listeners (final (SetState dance m))
         = _listeners m ++ [{| fn := f; code := call_Finished s |}]
      /\ action_of (final (SetState dance m)) dance
         = Some (AnimationAction.mk (AnimationAction._clip d) 0 true false
                   (AnimationAction.weight d) (AnimationAction.timeScale d)
                   LoopOnce (Some 1%nat) true true).
Proof.
  intros m p d Hready Hknown Hcur Hne Hd.
  pose proof (listeners_known_older m (S (next_oid m)) Hknown
                (Nat.le_succ_diag_r _)) as Hold1.
  ready_machine Hready Hcur.
  unfold action_of in Hd. rewrite Ed in Hd. injection Hd as <-.
  destruct (Name p) eqn:Hp;
    try (exfalso; apply Hnj; reflexivity);
    try (exfalso; apply Hne; reflexivity);
    run;
    rewrite (addEventListener_fresh _ _ _ Hold1);
    eexists; eexists; (split; [reflexivity|]); (split; [reflexivity|]);
    (split; [reflexivity|]); unfold action_of; run; reflexivity.
Qed.

(** ** Updates and the "finished" event *)

Lemma SetState_guard m p n :
  currentState m = Some p -> Name p = n -> SetState n m = Returned tt m.
Proof.
  intros Hcur Hn. unfold SetState, bind, get. rewrite Hcur.
  replace (STATES_eqb (Name p) n) with true; [reflexivity|].
  symmetry. apply STATES_eqb_eq, Hn.
Qed.

Lemma Update_as_SetState m p dt input :
  currentState m = Some p -> constructed p ->
  Update dt input m = SetState (Update_request (Name p) input) m.
Proof.
  intros Hcur Hp.
  destruct (constructed_class p Hp) as (Hcls & Hpar & _ & Hnj).
  unfold Update, bind at 1, get. rewrite Hcur.
  destruct (Name p) eqn:Hn; try (exfalso; apply Hnj; reflexivity);
    rewrite Hcls;
    unfold IdleState_Update, WalkState_Update, RunState_Update,
      require_parent, Update_request;
    rewrite ?Hpar; unfold bind, ret;
    destruct (forward input), (backward input), (space input), (shift input);
    cbn [orb negb];
    first [ reflexivity
          | symmetry; apply (SetState_guard m p _ Hcur Hn) ].
Qed.

Lemma Update_request_registered n input :
  n <> jump -> CharacterFSM_states (Update_request n input) <> None.
Proof.
  intros Hn. destruct n; try (exfalso; apply Hn; reflexivity);
    unfold Update_request;
    destruct (forward input), (backward input), (space input), (shift input);
    cbn; discriminate.
Qed.

(** X9.  On a ready machine with a current state, [Update] is the request
    [SetState] of the name the hooks give for the current name and the
    keys; it returns without an exception, the current state then has that
    name, and the machine is ready for the next tick.  In Dance no key
    changes the state. *)
Theorem Update_requests_the_next_state :
  forall (m : Machine) (p : State) (dt : Q) (input : keys),
    ready m ->
    currentState m = Some p ->
    Update dt input m = SetState (Update_request (Name p) input) m
    /\ threw (Update dt input m) = false
    /\ ready (final (Update dt input m))
    /\ (exists s,
          currentState (final (Update dt input m)) = Some s
          /\ Name s = Update_request (Name p) input)
    /\ (Name p = dance -> Update dt input m = Returned tt m).
Proof.
  intros m p dt input Hready Hcur.
  pose proof Hready as (_ & _ & Hcons).
  pose proof (Update_as_SetState m p dt input Hcur (Hcons p Hcur)) as HU.
  destruct (constructed_class p (Hcons p Hcur)) as (_ & _ & _ & Hnj).
  pose proof (Update_request_registered (Name p) input Hnj) as Hreg.
  rewrite HU.
  split; [reflexivity|]. split.
  { apply registered_request_returns; [exact Hready | exact Hreg|].
    left. congruence. }
  destruct (registered_request_enters m _ Hready Hreg) as [Hr Hs].
  split; [exact Hr|]. split; [exact Hs|].
  intros Hd. rewrite Hd. cbn [Update_request].
  apply (SetState_guard m p dance Hcur Hd).
Qed.

(** X10.  From Idle with a movement key and the modifier held, one update
    enters Walking and only the second one enters Run: Run is never entered
    straight from Idle by [Update]. *)
Theorem Idle_reaches_Run_in_two_updates :
  forall (m : Machine) (p : State) (dt1 dt2 : Q) (input : keys),
    ready m ->
    currentState m = Some p ->
    Name p = idle ->
    forward input || backward input = true ->
    shift input = true ->
    (exists s1,
        currentState (final (Update dt1 input m)) = Some s1
        /\ Name s1 = walking)
    /\ (exists s2,
           currentState
             (final (Update dt2 input (final (Update dt1 input m))))
           = Some s2
           /\ Name s2 = run).
Proof.
  intros m p dt1 dt2 input Hready Hcur Hp Hmove Hshift.
  pose proof Hready as (_ & _ & Hcons).
  pose proof (Update_as_SetState m p dt1 input Hcur (Hcons p Hcur)) as HU1.
  destruct (constructed_class p (Hcons p Hcur)) as (_ & _ & _ & Hnj).
  pose proof (Update_request_registered (Name p) input Hnj) as Hreg1.
  destruct (registered_request_enters m _ Hready Hreg1)
    as (Hready1 & s1 & Hcur1 & Hs1).
  rewrite <- HU1 in Hready1, Hcur1.
  rewrite Hp in Hs1. cbn [Update_request] in Hs1. rewrite Hmove in Hs1.
  split; [exists s1; split; assumption|].
  set (m1 := final (Update dt1 input m)) in *.
  pose proof Hready1 as (_ & _ & Hcons1).
  pose proof (Update_as_SetState m1 s1 dt2 input Hcur1 (Hcons1 s1 Hcur1))
    as HU2.
  assert (Hreg2 : CharacterFSM_states (Update_request (Name s1) input) <> None).
  { apply Update_request_registered. rewrite Hs1. discriminate. }
  destruct (registered_request_enters m1 _ Hready1 Hreg2)
    as (_ & s2 & Hcur2 & Hs2).
  rewrite <- HU2 in Hcur2.
  rewrite Hs1 in Hs2. cbn [Update_request] in Hs2.
  rewrite Hmove, Hshift in Hs2.
  exists s2. split; assumption.
Qed.

(** X11.  On a ready machine with a current state and at least one listener,
    all of them known, the "finished" event returns with a current state
    named idle, whatever state was current, and with the very listeners
    it was dispatched to: the callbacks remove nothing. *)
Theorem finished_event_forces_Idle :
  forall (m : Machine) (p : State),
    ready m ->
    listeners_known m ->
    currentState m = Some p ->
    _listeners m <> [] ->
    exists m' q,
      dispatch_finished m = Returned tt m'
      /\ ready m'
      /\ _listeners m' = _listeners m
      /\ currentState m' = Some q
      /\ Name q = idle.
Proof.
  intros m p Hready Hknown Hcur Hne.
  assert (Hls : Forall (fun l => exists owner,
                          code l = call_Finished owner /\ constructed owner)
                       (_listeners m)).
  { eapply Forall_impl; [|exact Hknown]. cbn. intros l [_ H]. exact H. }
  destruct (invoke_all_known (_listeners m) m p Hls Hready Hknown Hcur)
    as (m' & q & Hrun & Hready' & _ & Hl & Hcur' & Hq).
  exists m', q. split; [exact Hrun|].
  split; [exact Hready'|]. split; [exact Hl|]. split; [exact Hcur'|].
  apply Hq, Hne.
Qed.

(** ** Further kinematics *)

(** X12.  With the constructor's deceleration constants, a tick of
    non-negative length never makes the forward velocity larger in
    magnitude, and a tick so long that the product velocity times -5 times
    elapsed time outweighs the velocity brings the forward velocity to zero
    instead of reversing it. *)
Theorem deceleration_shrinks_or_stops_forward_velocity :
  forall (velocity : Vector3.t) (dt : Q),
    0 <= dt ->
    let after :=
      Vector3.z
        (Vector3.add velocity
           (frameDecceleration velocity decceleration0 dt)) in
    Qabs after <= Qabs (Vector3.z velocity)
    /\ (Qabs (Vector3.z velocity) <= Qabs (Vector3.z velocity * (-5.0) * dt) ->
        after == 0).
Proof.
  intros velocity dt Hdt after.
  set (v := Vector3.z velocity).
  set (raw := v * (-5.0) * dt).
  assert (Hafter : after
                   = v + Math_sign raw * Math_min (Math_abs raw) (Math_abs v))
    by reflexivity.
  destruct (clamp_spec raw v) as (Hbound & _ & Hpos & Hneg & _ & Hlarge).
  set (c := Math_sign raw * Math_min (Math_abs raw) (Math_abs v)) in *.
  rewrite Hafter. clearbody c. clear Hafter after.
  destruct (Qlt_le_dec v 0) as [Hvneg | Hvpos].
  - assert (Hraw : 0 <= raw).
    { unfold raw.
      setoid_replace (v * -5.0 * dt) with (5 * ((- v) * dt)) by ring.
      assert (0 <= (- v) * dt) by (apply Qmult_le_0_compat; lra). lra. }
    specialize (Hpos Hraw).
    rewrite (Qabs_pos c Hpos), (Qabs_neg v) in Hbound by lra.
    split.
    + rewrite (Qabs_neg (v + c)), (Qabs_neg v) by lra. lra.
    + intros Hlong. specialize (Hlarge Hlong).
      rewrite (Qabs_pos c Hpos), (Qabs_neg v) in Hlarge by lra. lra.
  - assert (Hraw : raw <= 0).
    { unfold raw.
      setoid_replace (v * -5.0 * dt) with (- (5 * (v * dt))) by ring.
      assert (0 <= v * dt) by (apply Qmult_le_0_compat; lra). lra. }
    specialize (Hneg Hraw).
    rewrite (Qabs_neg c Hneg), (Qabs_pos v Hvpos) in Hbound.
    split.
    + rewrite (Qabs_pos (v + c)), (Qabs_pos v) by lra. lra.
    + intros Hlong. specialize (Hlarge Hlong).
      rewrite (Qabs_neg c Hneg), (Qabs_pos v Hvpos) in Hlarge. lra.
Qed.

Lemma frameDecceleration_zero (velocity d : Vector3.t) (dt : Q) :
  dt == 0 ->
  Vector3.eqv (Vector3.add velocity (frameDecceleration velocity d dt))
              velocity.
Proof.
  intros Hdt. unfold frameDecceleration, Vector3.eqv.
  cbn [Vector3.add Vector3.multiplyScalar Vector3.set_z
       Vector3.x Vector3.y Vector3.z].
  rewrite (Math_sign_zero (Vector3.z velocity * Vector3.z d * dt))
    by (rewrite Hdt; ring).
  repeat split; first [rewrite Hdt; ring | ring].
Qed.

Lemma accelerate_zero (a v : Vector3.t) (input : keys) (dt : Q) :
  dt == 0 -> Vector3.eqv (accelerate a input dt v) v.
Proof.
  intros Hdt. unfold accelerate, Vector3.eqv.
  destruct (forward input), (backward input);
    cbn [Vector3.set_z Vector3.x Vector3.y Vector3.z];
    repeat split; try reflexivity; rewrite Hdt; ring.
Qed.

Lemma displacement_zero (p f s : Vector3.t) (a b dt : Q) :
  dt == 0 ->
  Vector3.eqv
    (Vector3.add (Vector3.add p (Vector3.multiplyScalar (a * dt) f))
       (Vector3.multiplyScalar (b * dt) s))
    p.
Proof.
  intros Hdt. unfold Vector3.eqv.
  cbn [Vector3.add Vector3.multiplyScalar Vector3.x Vector3.y Vector3.z].
  repeat split; rewrite Hdt; ring.
Qed.

Lemma eqv_trans (a b c : Vector3.t) :
  Vector3.eqv a b -> Vector3.eqv b c -> Vector3.eqv a c.
Proof.
  unfold Vector3.eqv. intros (A1 & A2 & A3) (B1 & B2 & B3).
  repeat split; etransitivity; eassumption.
Qed.

Lemma eqv_refl (a : Vector3.t) : Vector3.eqv a a.
Proof. unfold Vector3.eqv. repeat split; reflexivity. Qed.

Section TickFurther.

Variable Quaternion : Type.
Variable setFromAxisAngle : Vector3.t -> Q -> Quaternion.
Variable multiply : Quaternion -> Quaternion -> Quaternion.
Variable applyQuaternion : Vector3.t -> Quaternion -> Vector3.t.
Variable normalize : Vector3.t -> Vector3.t.
Variable mixer_update : Q -> AnimationsRecord -> AnimationsRecord * bool.

Local Notation "'tick''" :=
  (tick setFromAxisAngle multiply applyQuaternion normalize mixer_update).

(** X13.  A tick of zero seconds (the first frame) leaves the velocity and
    the position where they were, whatever the keys, the state and the
    outcome of the tick. *)
Theorem tick_of_zero_seconds_moves_nothing :
  forall (c : BasicCharacterController Quaternion) (dt : Q),
    dt == 0 ->
    Vector3.eqv (_velocity (final (tick' dt c))) (_velocity c)
    /\ match _target c, _target (final (tick' dt c)) with
       | Some obj, Some obj' => Vector3.eqv (position obj') (position obj)
       | None, None => True
       | _, _ => False
       end.
Proof.
  intros c dt Hdt. unfold tick.
  destruct (_target c) as [obj|] eqn:Htarget.
  - destruct (Update dt (_input c) (_stateMachine c)) as [[] m1|e m1].
    + assert (Hv : Vector3.eqv
                     (accelerate (acc (_acceleration c) (_input c) m1)
                        (_input c) dt
                        (Vector3.add (_velocity c)
                           (frameDecceleration (_velocity c)
                              (_decceleration c) dt)))
                     (_velocity c)).
      { eapply eqv_trans; [apply accelerate_zero, Hdt|].
        apply frameDecceleration_zero, Hdt. }
      destruct (mixer_step mixer_update dt m1) as [[] m2|e m2];
        cbn [final _velocity _target position];
        (split; [exact Hv | apply displacement_zero, Hdt]).
    + cbn [final with_stateMachine _velocity _target]. rewrite Htarget.
      split; apply eqv_refl.
  - cbn [final]. rewrite Htarget. split; [apply eqv_refl | exact I].
Qed.

End TickFurther.

(** ** The render loop *)

Lemma last_cons_default (l : list Q) :
  forall a d, last (a :: l) d = last l a.
Proof.
  induction l as [|b l IH]; intros a d.
  - reflexivity.
  - change (last (a :: b :: l) d) with (last (b :: l) d).
    rewrite (IH b d), (IH b a). reflexivity.
Qed.

Section RenderLoopProperties.

Variable Quaternion : Type.
Variable setFromAxisAngle : Vector3.t -> Q -> Quaternion.
Variable multiply : Quaternion -> Quaternion -> Quaternion.
Variable applyQuaternion : Vector3.t -> Quaternion -> Vector3.t.
Variable normalize : Vector3.t -> Vector3.t.
Variable mixer_update : Q -> AnimationsRecord -> AnimationsRecord * bool.

Local Notation "'_RAF''" :=
  (_RAF setFromAxisAngle multiply applyQuaternion normalize mixer_update).
Local Notation "'frames''" :=
  (frames setFromAxisAngle multiply applyQuaternion normalize mixer_update).

Lemma RAF_step (w : WorldWithCharacter Quaternion) (p t : Q) :
  _previousRAF w = Some p ->
  exists b,
    ticked (_RAF' t w) = ticked w ++ [((t - p) * 0.001, b)]
    /\ _previousRAF (_RAF' t w) = Some (if b then p else t).
Proof.
  intros Hp. unfold _RAF. rewrite Hp.
  destruct (_Tick setFromAxisAngle multiply applyQuaternion normalize
              mixer_update (t - p) (_controls w)) as [[] c'|e c'];
    cbn [_previousRAF ticked]; eexists; split; reflexivity.
Qed.

Lemma frames_ticks (ts : list Q) :
  forall (w : WorldWithCharacter Quaternion) (p : Q),
    _previousRAF w = Some p ->
    exists added,
      ticked (frames' ts w) = ticked w ++ added
      /\ List.length added = List.length ts
      /\ (exists p', _previousRAF (frames' ts w) = Some p' /\ In p' (p :: ts))
      /\ (Forall (fun x => snd x = false) added ->
          map fst added = frame_seconds p ts
          /\ _previousRAF (frames' ts w) = Some (last ts p)).
Proof.
  induction ts as [|t ts IH]; intros w p Hp.
  - exists []. cbn [frames fold_left]. rewrite app_nil_r.
    split; [reflexivity|]. split; [reflexivity|]. split.
    + exists p. split; [exact Hp | left; reflexivity].
    + intros _. split; [reflexivity | exact Hp].
  - change (frames' (t :: ts) w) with (frames' ts (_RAF' t w)).
    destruct (RAF_step w p t Hp) as (b & Ht & Hprev).
    destruct (IH (_RAF' t w) (if b then p else t) Hprev)
      as (added & He & Hlen & (p' & Hp' & Hin) & Hall).
    exists (((t - p) * 0.001, b) :: added).
    split; [rewrite He, Ht, <- app_assoc; reflexivity|].
    split; [cbn [List.length]; rewrite Hlen; reflexivity|].
    split.
    + exists p'. split; [exact Hp'|].
      destruct b; destruct Hin as [<- | Hin].
      * left; reflexivity.
      * right; right; exact Hin.
      * right; left; reflexivity.
      * right; right; exact Hin.
    + intros HF. inversion HF as [|x l Hb HF']; subst.
      cbn [snd] in Hb. subst b.
      destruct (Hall HF') as [Hm Hl].
      split.
      * cbn [map fst frame_seconds]. rewrite Hm. reflexivity.
      * rewrite Hl, last_cons_default. reflexivity.
Qed.


End RenderLoopProperties.

(** ** The keyboard *)

Section KeyboardProperties.

Variable toLocaleLowerCase : string -> string.

Local Notation "'down'" := (_onKeyDown toLocaleLowerCase).
Local Notation "'up'" := (_onKeyUp toLocaleLowerCase).

(** X17.  For one and the same key the last event wins: a release after a
    press leaves the keys as the release alone does, a press after a
    release as the press alone does, and a repeated press changes nothing
    more. *)
Theorem last_key_event_wins :
  forall (key : string) (k : keys),
    up key (down key k) = up key k
    /\ down key (up key k) = down key k
    /\ down key (down key k) = down key k.
Proof.
  intros key k. unfold _onKeyDown, _onKeyUp.
  destruct (String.eqb (toLocaleLowerCase key) "w"); [repeat split|].
  destruct (String.eqb (toLocaleLowerCase key) "a"); [repeat split|].
  destruct (String.eqb (toLocaleLowerCase key) "s"); [repeat split|].
  destruct (String.eqb (toLocaleLowerCase key) "d"); [repeat split|].
  destruct (String.eqb (toLocaleLowerCase key) " "); [repeat split|].
  destruct (String.eqb (toLocaleLowerCase key) "shift"); repeat split.
Qed.

(** X18.  A key event writes at most the one field of its key: events of two
    keys with different lower-case names can be handled in either order,
    and a key that is none of w, a, s, d, space and shift changes
    nothing. *)
Theorem key_events_of_different_keys_commute :
  forall (key1 key2 : string) (k : keys),
    (toLocaleLowerCase key1 <> toLocaleLowerCase key2 ->
     down key1 (up key2 k) = up key2 (down key1 k)
     /\ down key1 (down key2 k) = down key2 (down key1 k)
     /\ up key1 (up key2 k) = up key2 (up key1 k))
    /\ (~ In (toLocaleLowerCase key1) ["w"; "a"; "s"; "d"; " "; "shift"]%string ->
        down key1 k = k /\ up key1 k = k).
Proof.
  intros key1 key2 k. split.
  - intros Hne. unfold _onKeyDown, _onKeyUp.
    destruct (String.eqb_spec (toLocaleLowerCase key1) "w") as [E1|_];
      [|destruct (String.eqb_spec (toLocaleLowerCase key1) "a") as [E1|_];
        [|destruct (String.eqb_spec (toLocaleLowerCase key1) "s") as [E1|_];
          [|destruct (String.eqb_spec (toLocaleLowerCase key1) "d") as [E1|_];
            [|destruct (String.eqb_spec (toLocaleLowerCase key1) " ")
                as [E1|_];
              [|destruct (String.eqb_spec (toLocaleLowerCase key1) "shift")
                  as [E1|_]]]]]];
      (destruct (String.eqb_spec (toLocaleLowerCase key2) "w") as [E2|_];
       [|destruct (String.eqb_spec (toLocaleLowerCase key2) "a") as [E2|_];
         [|destruct (String.eqb_spec (toLocaleLowerCase key2) "s") as [E2|_];
           [|destruct (String.eqb_spec (toLocaleLowerCase key2) "d")
               as [E2|_];
             [|destruct (String.eqb_spec (toLocaleLowerCase key2) " ")
                 as [E2|_];
               [|destruct (String.eqb_spec (toLocaleLowerCase key2) "shift")
                   as [E2|_]]]]]]);
      try (exfalso; apply Hne; congruence);
      repeat split.
  - intros Hnot. unfold _onKeyDown, _onKeyUp.
    destruct (String.eqb_spec (toLocaleLowerCase key1) "w") as [E|_];
      [exfalso; apply Hnot; rewrite E; cbn; tauto|].
    destruct (String.eqb_spec (toLocaleLowerCase key1) "a") as [E|_];
      [exfalso; apply Hnot; rewrite E; cbn; tauto|].
    destruct (String.eqb_spec (toLocaleLowerCase key1) "s") as [E|_];
      [exfalso; apply Hnot; rewrite E; cbn; tauto|].
    destruct (String.eqb_spec (toLocaleLowerCase key1) "d") as [E|_];
      [exfalso; apply Hnot; rewrite E; cbn; tauto|].
    destruct (String.eqb_spec (toLocaleLowerCase key1) " ") as [E|_];
      [exfalso; apply Hnot; rewrite E; cbn; tauto|].
    destruct (String.eqb_spec (toLocaleLowerCase key1) "shift") as [E|_];
      [exfalso; apply Hnot; rewrite E; cbn; tauto|].
    split; reflexivity.
Qed.

End KeyboardProperties.

(** ** Registration *)

(** X20.  The constructor of [CharacterFSM] registers each class under the
    name its instances answer: the state built from the class registered
    under a name has that name, with the machine as parent; and "jump" is
    the one name with no class. *)
Theorem CharacterFSM_registers_classes_by_name :
  forall (n : STATES) (c : StateClass) (m : Machine),
    (CharacterFSM_states n = None <-> n = jump)
    /\ (CharacterFSM_states n = Some c ->
        exists s m',
          new_State c (Some the_machine) m = Returned s m'
          /\ Name s = n
          /\ _parent s = Some the_machine).
Proof.
  intros n c m. split.
  - destruct n; cbn; split; congruence.
  - intros Hreg. apply CharacterFSM_states_class in Hreg. subst n.
    destruct c; cbn; eexists; eexists; repeat split.
Qed.

(** ** Examples of the further properties *)

Lemma machine_walking_ready : ready machine_walking.
Proof. ready_example. Qed.

Lemma machine_dance_ready : ready machine_dance.
Proof. ready_example. Qed.

Lemma machine_dance_listeners_known : listeners_known machine_dance.
Proof.
  unfold listeners_known.
  assert (Hl : _listeners machine_dance
               = [{| fn := 2;
                     code := call_Finished
                               {| oid := 1; class := DanceState;
                                  _parent := Some the_machine;
                                  _name := dance;
                                  _FinishedCallback := Some 2%nat |} |}])
    by reflexivity.
  assert (Hn : next_oid machine_dance = 3%nat) by reflexivity.
  rewrite Hl, Hn. constructor; [|constructor].
  cbn [fn code]. split; [lia|].
  eexists. split; [reflexivity|]. split; reflexivity.
Qed.

Lemma machine_idle_listeners_known : listeners_known machine_idle.
Proof.
  unfold listeners_known.
  assert (Hl : _listeners machine_idle = []) by reflexivity.
  rewrite Hl. constructor.
Qed.

(** Walking requested of the idle machine. *)
Lemma SetState_registered_enters_witness :
  ready (final (SetState walking machine_idle))
  /\ exists s,
       currentState (final (SetState walking machine_idle)) = Some s
       /\ Name s = walking.
Proof.
  apply SetState_registered_enters_requested.
  - exact machine_idle_ready.
  - discriminate.
Defined.

(** Dance requested of the idle machine. *)
Lemma SetState_registered_returns_witness :
  threw (SetState dance machine_idle) = false.
Proof.
  apply SetState_registered_returns.
  - exact machine_idle_ready.
  - discriminate.
  - right. discriminate.
Defined.

(** Run requested first, with the animations loaded. *)
Lemma SetState_Run_first_witness :
  exists m' s,
    SetState run (initial_machine example_animations) = Threw TypeError m'
    /\ currentState m' = Some s
    /\ Name s = run
    /\ hooks m'
       = hooks (initial_machine example_animations) ++ [Enter_called s None]
    /\ (forall k,
           action_of m' k = action_of (initial_machine example_animations) k)
    /\ crossFades m' = crossFades (initial_machine example_animations)
    /\ SetState run m' = Returned tt m'.
Proof.
  exact (SetState_Run_first_throws (initial_machine example_animations)
           eq_refl eq_refl).
Defined.

(** Idle requested before anything is loaded. *)
Lemma SetState_before_load_witness :
  exists m' s,
    SetState idle (initial_machine (fun _ => None)) = Threw TypeError m'
    /\ currentState m' = Some s
    /\ class s = IdleState
    /\ crossFades m' = crossFades (initial_machine (fun _ => None))
    /\ _listeners m' = _listeners (initial_machine (fun _ => None))
    /\ forall animations,
         SetState (Name s) (with_animations animations m')
         = Returned tt (with_animations animations m').
Proof.
  exact (SetState_before_load_sticks (initial_machine (fun _ => None))
           idle IdleState eq_refl eq_refl eq_refl).
Defined.

(** Idle requested first, after load. *)
Lemma SetState_first_activation_witness :
  threw (SetState idle (initial_machine example_animations)) = false
  /\ action_of (final (SetState idle (initial_machine example_animations)))
       idle
     = Some (AnimationAction.play (clipAction {| duration := 3.0 |}))
  /\ crossFades (final (SetState idle (initial_machine example_animations)))
     = [].
Proof.
  assert (Hc : IdleState <> RunState) by discriminate.
  exact (SetState_first_activation_only_plays
           (initial_machine example_animations) idle IdleState
           {| clip := {| duration := 3.0 |};
              action := clipAction {| duration := 3.0 |} |}
           eq_refl eq_refl Hc eq_refl).
Defined.

(** Walking to Run leaves the idle action as it was. *)
Lemma SetState_leaves_the_other_actions_witness :
  action_of (final (SetState run machine_walking)) idle
  = action_of machine_walking idle
  /\ exists added,
       crossFades (final (SetState run machine_walking))
       = crossFades machine_walking ++ added
       /\ Forall (fun cf =>
                    fadeIn cf = run
                    /\ option_map Name (currentState machine_walking)
                       = Some (fadeOut cf))
            added.
Proof.
  assert (Hk : idle <> run) by discriminate.
  assert (Hc : currentState machine_walking
               = Some {| oid := 1; class := WalkState;
                         _parent := Some the_machine;
                         _name := walking; _FinishedCallback := None |})
    by reflexivity.
  assert (Hout : forall p,
             currentState machine_walking = Some p -> Name p <> idle).
  { intros p Hp. rewrite Hc in Hp. injection Hp as <-. discriminate. }
  exact (SetState_leaves_the_other_actions_alone machine_walking run idle
           machine_walking_ready Hk Hout).
Defined.

(** Idle to Dance after load. *)
Lemma Dance_entry_witness :
  exists s f,
    currentState (final (SetState dance machine_idle)) = Some s
    /\ class s = DanceState
    /\ _listeners (final (SetState dance machine_idle))
       = _listeners machine_idle ++ [{| fn := f; code := call_Finished s |}]
    /\ action_of (final (SetState dance machine_idle)) dance
       = Some (AnimationAction.mk {| duration := 12.5 |} 0 true false 1 1
                 LoopOnce (Some 1%nat) true true).
Proof.
  assert (Hne : Name {| oid := 0; class := IdleState;
                         _parent := Some the_machine;
                         _name := idle; _FinishedCallback := None |}
                <> dance) by discriminate.
  exact (Dance_entry_is_one_shot machine_idle
           {| oid := 0; class := IdleState; _parent := Some the_machine;
              _name := idle; _FinishedCallback := None |}
           (clipAction {| duration := 12.5 |})
           machine_idle_ready machine_idle_listeners_known
           eq_refl Hne eq_refl).
Defined.

(** Idle with the forward key held. *)
Lemma Update_requests_witness :
  threw (Update 0.016 (ControllerInput.mk true false false false false false)
           machine_idle) = false
  /\ exists s,
       currentState
         (final (Update 0.016
                   (ControllerInput.mk true false false false false false)
                   machine_idle)) = Some s
       /\ Name s = walking.
Proof.
  destruct (Update_requests_the_next_state machine_idle
              {| oid := 0; class := IdleState; _parent := Some the_machine;
                 _name := idle; _FinishedCallback := None |}
              0.016 (ControllerInput.mk true false false false false false)
              machine_idle_ready eq_refl)
    as (_ & Hret & _ & Hs & _).
  split; [exact Hret | exact Hs].
Defined.

(** Idle with the forward key and the modifier held, two updates. *)
Lemma Idle_reaches_Run_witness :
  exists s2,
    currentState
      (final (Update 0.016
                (ControllerInput.mk true false false false false true)
                (final (Update 0.016
                          (ControllerInput.mk true false false false false
                             true)
                          machine_idle))))
    = Some s2
    /\ Name s2 = run.
Proof.
  exact (proj2 (Idle_reaches_Run_in_two_updates machine_idle
                  {| oid := 0; class := IdleState;
                     _parent := Some the_machine;
                     _name := idle; _FinishedCallback := None |}
                  0.016 0.016
                  (ControllerInput.mk true false false false false true)
                  machine_idle_ready eq_refl eq_refl eq_refl eq_refl)).
Defined.

(** The dance clip of the dancing machine finishes. *)
Lemma finished_event_witness :
  exists m' q,
    dispatch_finished machine_dance = Returned tt m'
    /\ ready m'
    /\ _listeners m' = _listeners machine_dance
    /\ currentState m' = Some q
    /\ Name q = idle.
Proof.
  assert (Hl : _listeners machine_dance
               = [{| fn := 2;
                     code := call_Finished
                               {| oid := 1; class := DanceState;
                                  _parent := Some the_machine;
                                  _name := dance;
                                  _FinishedCallback := Some 2%nat |} |}])
    by reflexivity.
  assert (Hne : _listeners machine_dance <> [])
    by (rewrite Hl; discriminate).
  exact (finished_event_forces_Idle machine_dance
           {| oid := 1; class := DanceState; _parent := Some the_machine;
              _name := dance; _FinishedCallback := Some 2%nat |}
           machine_dance_ready machine_dance_listeners_known eq_refl Hne).
Defined.

(** A forward velocity of 3 over half a second. *)
Lemma deceleration_shrinks_or_stops_witness :
  Qabs (Vector3.z
          (Vector3.add (Vector3.mk 0 0 3)
             (frameDecceleration (Vector3.mk 0 0 3) decceleration0 0.5)))
  <= Qabs 3
  /\ Vector3.z
       (Vector3.add (Vector3.mk 0 0 3)
          (frameDecceleration (Vector3.mk 0 0 3) decceleration0 0.5))
     == 0.
Proof.
  assert (H1 : 0 <= 0.5) by lra.
  assert (H2 : Qabs 3 <= Qabs (3 * (-5.0) * 0.5)) by (vm_compute; discriminate).
  pose proof (deceleration_shrinks_or_stops_forward_velocity (Vector3.mk 0 0 3) 0.5 H1)
    as [Hle Hstop].
  split; [exact Hle | exact (Hstop H2)].
Defined.

(** The first frame of a walking character with every key held. *)
Lemma tick_of_zero_seconds_witness :
  Vector3.eqv
    (_velocity
       (final (tick toy_setFromAxisAngle toy_multiply toy_applyQuaternion
                 toy_normalize toy_mixer_update (0 * 0.001)
                 (example_controller machine_walking
                    (ControllerInput.mk true true true true true true)))))
    (_velocity
       (example_controller machine_walking
          (ControllerInput.mk true true true true true true))).
Proof.
  assert (H0 : 0 * 0.001 == 0) by reflexivity.
  pose proof (tick_of_zero_seconds_moves_nothing Q toy_setFromAxisAngle
                toy_multiply toy_applyQuaternion toy_normalize
                toy_mixer_update
                (example_controller machine_walking
                   (ControllerInput.mk true true true true true true))
                (0 * 0.001) H0) as H.
  destruct H as [H _]. exact H.
Defined.


(** The keys w and a, with the identity for the lower-case function. *)
Lemma key_events_commute_witness :
  _onKeyDown (fun s => s) "w" (_onKeyUp (fun s => s) "a" released)
  = _onKeyUp (fun s => s) "a" (_onKeyDown (fun s => s) "w" released).
Proof.
  assert (Hne : "w"%string <> "a"%string) by discriminate.
  exact (proj1 (proj1 (key_events_of_different_keys_commute (fun s => s)
                         "w" "a" released)
                  Hne)).
Defined.

(** The class registered under "dance". *)
Lemma CharacterFSM_registers_witness :
  exists s m',
    new_State DanceState (Some the_machine) machine_idle = Returned s m'
    /\ Name s = dance
    /\ _parent s = Some the_machine.
Proof.
  exact (proj2 (CharacterFSM_registers_classes_by_name dance DanceState
                  machine_idle)
           eq_refl).
Defined.
